(** * program_params: a shallow embedding of [program_params.h]

    The header declares a schema of command-line parameters ([Params::add]),
    then scans a token array ([Params::parse]) and writes the converted
    values through references held by the parameter objects.

    The embedding keeps the shape of the C++ code:
    - a parameter object ([Param<T>], derived from [ParamBase]) is a record
      living in an object heap, addressed by the index that stands for the
      [std::shared_ptr] pointing at it;
    - the variable a parameter writes to ([T &target_]) lives in a separate
      store, so that two parameters may share one variable;
    - members which no constructor initialises ([option_] for an empty
      name list, [found_] always) hold [None] until they are assigned, and
      reading them while unassigned is undefined behaviour;
    - [assert] is checked, a failing one aborts the program;
    - exceptions carry the state reached when they were thrown;
    - the scanning loop of [Params::parse] has no bound of its own, it is
      run with fuel, [None] meaning the loop is still running. *)

From Stdlib Require Import ZArith String Ascii List.
From stdpp Require Import base gmap strings list.

Local Open Scope string_scope.
Local Open Scope Z_scope.

(** ** [std::string] operations used by the header *)

Module Str.

(** [s.size()] *)
Definition size (s : string) : nat := String.length s.

(** [s.find(c)]; [None] is [std::string::npos]. *)
Fixpoint find (c : ascii) (s : string) : option nat :=
  match s with
  | EmptyString => None
  | String a r => if Ascii.eqb a c then Some 0%nat else S <$> find c r
  end.

(** [s.substr(pos)]. The C++ call throws [std::out_of_range] when
    [pos > s.size()]; every call in the header has [pos <= s.size()],
    where the result is the text from [pos] on. *)
Fixpoint substr (pos : nat) (s : string) : string :=
  match pos, s with
  | O, _ => s
  | S p, String _ r => substr p r
  | S _, EmptyString => EmptyString
  end.

(** [s.substr(0, n)] *)
Fixpoint take (n : nat) (s : string) : string :=
  match n, s with
  | S m, String a r => String a (take m r)
  | _, _ => EmptyString
  end.

(** [s[i]] for [i <= s.size()]; [s[s.size()]] is the terminating NUL. *)
Definition at_ (i : nat) (s : string) : ascii :=
  match String.get i s with
  | Some a => a
  | None => Ascii.zero
  end.

End Str.

(** [bool is_option(const std::string &arg)] *)
Definition is_option (arg : string) : bool :=
  (0 <? Str.size arg)%nat && bool_decide (Str.at_ 0 arg = "-"%char).

(** ** Exceptions and outcomes *)

(** [program_params::Exception] with its message, and the two exceptions
    the [std::sto*] conversions throw. *)
Inductive exn : Type :=
| Exception (what : string)
| invalid_argument
| out_of_range.

(** How a call ends: it returns, an exception propagates, an [assert]
    aborts the program, or the behaviour is undefined because a member or
    a local which was never assigned is read. *)
Inductive result (A : Type) : Type :=
| Ret (a : A)
| Throw (e : exn)
| Aborted
| Undef.
Arguments Ret {A} a.
Arguments Throw {A} e.
Arguments Aborted {A}.
Arguments Undef {A}.

(** ** The conversions of the C++ standard library

    [std::stoi], [std::stol], [std::stoul], [std::stof] and [std::stod] are
    not part of the header. They are taken as given, together with the
    carriers of [float] and [double]; [inl] is the exception thrown. *)
Class StdConv : Type := {
  float : Type;
  double : Type;
  float_zero : float;
  double_zero : double;
  stoi : string -> exn + Z;
  stol : string -> exn + Z;
  stoul : string -> exn + Z;
  stof : string -> exn + float;
  stod : string -> exn + double
}.

(** The eight types [Param<T>::parse] is specialised for. *)
Inductive ty : Type :=
| TBool | TString | TInt | TUInt | TLong | TULong | TFloat | TDouble.

#[global] Instance ty_eq_dec : EqDecision ty.
Proof. solve_decision. Defined.

(** Addresses: [ptr] of a parameter object, [addr] of a target variable. *)
Definition ptr := nat.
Definition addr := nat.
Bind Scope nat_scope with ptr addr.

Section Model.

Context {C : StdConv}.

(** The content of a target variable. *)
Inductive target : Type :=
| VBool (b : bool)
| VString (s : string)
| VInt (z : Z)
| VUInt (z : Z)
| VLong (z : Z)
| VULong (z : Z)
| VFloat (x : float)
| VDouble (x : double).

(** [T()], the value a [Value<T>] made by [std::make_shared] starts with. *)
Definition value_init (T : ty) : target :=
  match T with
  | TBool => VBool false | TString => VString "" | TInt => VInt 0
  | TUInt => VUInt 0 | TLong => VLong 0 | TULong => VULong 0
  | TFloat => VFloat float_zero | TDouble => VDouble double_zero
  end.

(** [Param<T>]: the members of [ParamBase], the template argument and the
    address [target_] refers to. *)
Record Param : Type := mkParam {
  T_ : ty;
  target_ : addr;
  names_ : list string;
  option_ : option bool;
  required_ : bool;
  found_ : option bool
}.

(** The memory a parse works on. *)
Record Memory : Type := mkMemory {
  objs : list Param;
  vars : list target
}.

(** Computations that read and write the memory. *)
Definition M (A : Type) : Type := Memory -> Memory * result A.

Definition ret {A} (a : A) : M A := fun m => (m, Ret a).

Definition bind {A B} (c : M A) (k : A -> M B) : M B :=
  fun m =>
    match c m with
    | (m', Ret a) => k a m'
    | (m', Throw e) => (m', Throw e)
    | (m', Aborted) => (m', Aborted)
    | (m', Undef) => (m', Undef)
    end.

Definition throw {A} (e : exn) : M A := fun m => (m, Throw e).
Definition abort {A} : M A := fun m => (m, Aborted).
Definition undef {A} : M A := fun m => (m, Undef).
Definition lift {A} (r : result A) : M A := fun m => (m, r).

(** [assert(b)] *)
Definition assert (b : bool) : M unit := if b then ret tt else abort.

(** Following a [shared_ptr]; in the header it always points at a live
    object. *)
Definition deref (p : ptr) : M Param :=
  fun m => match objs m !! p with
           | Some o => (m, Ret o)
           | None => (m, Undef)
           end.

(** [target_ = v] *)
Definition assign_target (p : ptr) (v : target) : M unit :=
  fun m => match objs m !! p with
           | Some o => (mkMemory (objs m) (<[target_ o := v]> (vars m)), Ret tt)
           | None => (m, Undef)
           end.

(** [found_ = true] *)
Definition mark_found (o : Param) : Param :=
  mkParam (T_ o) (target_ o) (names_ o) (option_ o) (required_ o) (Some true).

Definition set_found (p : ptr) : M unit :=
  fun m => match objs m !! p with
           | Some o => (mkMemory (<[p := mark_found o]> (objs m)) (vars m), Ret tt)
           | None => (m, Undef)
           end.

End Model.

Notation "x <- c ;; k" := (bind c (fun x => k))
  (at level 100, c at next level, right associativity).
Notation "c ;;; k" := (bind c (fun _ => k))
  (at level 100, right associativity).

Section Parser.

Context {C : StdConv}.

Definition of_sum {A} (r : exn + A) : result A :=
  match r with
  | inl e => Throw e
  | inr a => Ret a
  end.

(** ** [ParamBase] *)

(** The loop of [ParamBase::ParamBase] over [names]. The local [first]
    is never cleared, so the assertion [first || option == option_]
    holds without [option_] being read; [option_] ends as
    [is_option] of the last name and stays unassigned when there is no
    name. *)
Fixpoint ParamBase_names (first : bool) (names : list string)
    (option_ : option bool) : result (option bool) :=
  match names with
  | [] => Ret option_
  | name :: rest =>
      let option := is_option name in
      if first then ParamBase_names first rest (Some option)
      else match option_ with
           | None => Undef
           | Some o =>
               if Bool.eqb option o then ParamBase_names first rest (Some option)
               else Aborted
           end
  end.

(** [Param<T>::Param(target, names, required)]: [names_] and [required_]
    are initialised, [option_] by the loop, [found_] not at all. *)
Definition Param_new (T : ty) (target : addr) (names : list string)
    (required : bool) : result Param :=
  match ParamBase_names true names None with
  | Ret o => Ret (mkParam T target names o required None)
  | Throw e => Throw e
  | Aborted => Aborted
  | Undef => Undef
  end.

(** [ParamBase::value(start, end, inc)]: the value text and [inc].
    [start] is the list of tokens from [start] up to [end]. *)
Definition value (o : Param) (start : list string) : result (string * Z) :=
  match start with
  | [] => Aborted                                  (* assert(start < end) *)
  | opt :: rest =>
      match option_ o with
      | None => Undef
      | Some false => Ret (opt, 1)
      | Some true =>
          match Str.find "=" opt with
          | Some i => Ret (Str.substr (i + 1) opt, 1)
          | None =>
              if (2 <? Str.size opt)%nat then Ret (Str.substr 2 opt, 1)
              else match rest with
                   | [] => Aborted                 (* assert(start + 1 < end) *)
                   | next_token :: _ => Ret (next_token, 2)
                   end
          end
      end
  end.

(** [ParamBase::check()]; [&&] does not read [found_] when [required_]
    is false. *)
Definition check (p : ptr) : M unit :=
  o <- deref p ;;
  if required_ o then
    match found_ o with
    | None => undef
    | Some false => throw (Exception "Required parameter not found.")
    | Some true => ret tt
    end
  else ret tt.

(** ** [Param<T>::parse] *)

(** The conversion each non-boolean specialisation applies to the value
    text. [Param<unsigned int>] calls [std::stoul] and narrows the
    [unsigned long] to 32 bits. *)
Definition conversion (T : ty) (text : string) : exn + target :=
  match T with
  | TBool => inr (VBool true)
  | TString => inr (VString text)
  | TInt => sum_map id VInt (stoi text)
  | TUInt => sum_map id (fun z => VUInt (z mod 2 ^ 32)) (stoul text)
  | TLong => sum_map id VLong (stol text)
  | TULong => sum_map id VULong (stoul text)
  | TFloat => sum_map id VFloat (stof text)
  | TDouble => sum_map id VDouble (stod text)
  end.

(** [Param<T>::parse(start, end)], returning [inc]. *)
Definition Param_parse (p : ptr) (start : list string) : M Z :=
  o <- deref p ;;
  assert (negb (bool_decide (start = []))) ;;;
  match T_ o with
  | TBool =>
      assign_target p (VBool true) ;;;
      set_found p ;;;
      ret 0
  | T =>
      vi <- lift (value o start) ;;
      v <- lift (of_sum (conversion T vi.1)) ;;
      assign_target p v ;;;
      set_found p ;;;
      ret vi.2
  end.

(** ** [Params] *)

Record Params : Type := mkParams {
  strict_ : bool;
  map_ : gmap string ptr;
  positional_ : list ptr;
  values_ : list addr
}.

(** [Params(bool strict = true)] *)
Definition Params_new (strict : bool) : Params := mkParams strict ∅ [] [].

(** The loop of [add] over [names]: enters each name in [map_] and
    tracks [option]. *)
Fixpoint add_names (p : ptr) (names : list string) (map : gmap string ptr)
    (option : bool) : result (gmap string ptr * bool) :=
  match names with
  | [] => Ret (map, option)
  | name :: rest =>
      let map := <[name := p]> map in
      if is_option name then add_names p rest map true
      else if negb option then add_names p rest map option  (* assert(!option) *)
      else Aborted
  end.

(** [add(T &target, StrVec names, bool required)] *)
Definition add (T : ty) (target : addr) (names : list string) (required : bool)
    (P : Params) : M Params :=
  o <- lift (Param_new T target names required) ;;
  fun m =>
    let p := length (objs m) in
    let m' := mkMemory (objs m ++ [o]) (vars m) in
    match add_names p names (map_ P) false with
    | Ret (map, option) =>
        (m', Ret (mkParams (strict_ P) map
                    (if option then positional_ P else positional_ P ++ [p])
                    (values_ P)))
    | Throw e => (m', Throw e)
    | Aborted => (m', Aborted)
    | Undef => (m', Undef)
    end.

(** [add<T>(StrVec names, bool required)]: the target is a fresh
    [Value<T>] owned by [values_]. *)
Definition add_value (T : ty) (names : list string) (required : bool)
    (P : Params) : M Params :=
  fun m =>
    let a := length (vars m) in
    add T a names required
      (mkParams (strict_ P) (map_ P) (positional_ P) (values_ P ++ [a]))
      (mkMemory (objs m) (vars m ++ [value_init T])).

(** [get<T>(name)]: the [dynamic_cast] succeeds when the object is a
    [Param<T>]. The content of the target is returned. *)
Definition get (T : ty) (name : string) (P : Params) : M target :=
  match map_ P !! name with
  | None => throw (Exception "Parameter not found.")
  | Some p =>
      o <- deref p ;;
      if bool_decide (T_ o = T) then
        fun m => match vars m !! target_ o with
                 | Some v => (m, Ret v)
                 | None => (m, Undef)
                 end
      else throw (Exception "Conversion not supported.")
  end.

(** ** [Params::parse] *)

(** The variables of the loop: [start] (the tokens from [start] to [end]),
    the iterator [next] as an index into [positional_], and
    [positional_onward]. *)
Record cursor : Type := mkCursor {
  start : list string;
  next : nat;
  positional_onward : bool
}.

(** [start += n] *)
Definition advance (n : Z) (c : cursor) : cursor :=
  mkCursor (drop (Z.to_nat n) (start c)) (next c) (positional_onward c).

(** The tokens which go to the positional parameters. *)
Definition is_positional_token (c : cursor) (arg : string) : bool :=
  positional_onward c
  || bool_decide (arg = "")
  || bool_decide (arg = "-")
  || negb (bool_decide (Str.at_ 0 arg = "-"%char)).

(** First branch of the loop body. *)
Definition positional_rule (P : Params) (c : cursor) : M cursor :=
  match positional_ P !! next c with
  | Some p =>
      inc <- Param_parse p (start c) ;;
      ret (mkCursor (drop (Z.to_nat inc) (start c)) (S (next c))
             (positional_onward c))
  | None =>
      if strict_ P then throw (Exception "Unknown positional parameter.")
      else ret c                                   (* continue *)
  end.

(** The [for] loop over the characters [arg[1]], [arg[2]], ... of a
    token with short options; [chars] holds the characters not yet
    looked at and [inc] is the local [int inc], which is declared without
    a value. *)
Fixpoint short_options (P : Params) (start : list string) (chars : string)
    (inc : option Z) : M (option Z) :=
  match chars with
  | EmptyString => ret inc
  | String ch rest =>
      let opt := String "-" (String ch EmptyString) in
      match map_ P !! opt with
      | Some p =>
          n <- Param_parse p start ;;
          if 0 <? n then ret (Some n)              (* break *)
          else short_options P start rest (Some n)
      | None =>
          if strict_ P then throw (Exception "Unknown short option.")
          else short_options P start rest inc
      end
  end.

Definition short_rule (P : Params) (c : cursor) (arg : string) : M cursor :=
  inc <- short_options P (start c) (Str.substr 1 arg) None ;;
  match inc with
  | None => undef
  | Some n => ret (advance (if 0 <? n then n else 1) c)
  end.

Definition long_rule (P : Params) (c : cursor) (arg : string) : M cursor :=
  let opt := match Str.find "=" arg with
             | Some i => Str.take i arg
             | None => arg
             end in
  match map_ P !! opt with
  | Some p =>
      inc <- Param_parse p (start c) ;;
      ret (advance inc c)
  | None =>
      if strict_ P then throw (Exception "Unknown long option.")
      else ret c
  end.

(** One execution of the loop body, entered with [start < end]. *)
Definition iteration (P : Params) (c : cursor) : M cursor :=
  match start c with
  | [] => ret c
  | arg :: _ =>
      if is_positional_token c arg then positional_rule P c
      else if bool_decide (arg = "--") then
        ret (mkCursor (drop 1 (start c)) (next c) true)
      else if negb (bool_decide (Str.at_ 1 arg = "-"%char)) then short_rule P c arg
      else long_rule P c arg
  end.

(** The loop [for (...; start < end;)], run for at most [fuel]
    iterations; [None] when the fuel does not suffice. *)
Fixpoint scan (fuel : nat) (P : Params) (c : cursor) (m : Memory)
    : option (Memory * result cursor) :=
  match start c with
  | [] => Some (m, Ret c)
  | _ :: _ =>
      match fuel with
      | O => None
      | S fuel' =>
          match iteration P c m with
          | (m', Ret c') => scan fuel' P c' m'
          | (m', r) => Some (m', r)
          end
      end
  end.

Fixpoint for_each (f : ptr -> M unit) (l : list ptr) : M unit :=
  match l with
  | [] => ret tt
  | p :: rest => f p ;;; for_each f rest
  end.

(** The two loops which end [parse]: over [map_], in the order the map
    enumerates its entries, then over [positional_]. *)
Definition check_all (P : Params) : M unit :=
  for_each check (map_to_list (map_ P)).*2 ;;;
  for_each check (positional_ P).

(** [parse(argc, argv)], [argv] holding the [argc] tokens. *)
Definition parse (fuel : nat) (P : Params) (argv : list string) (m : Memory)
    : option (Memory * result unit) :=
  match scan fuel P (mkCursor argv 0 false) m with
  | None => None
  | Some (m', Ret _) => Some (check_all P m')
  | Some (m', Throw e) => Some (m', Throw e)
  | Some (m', Aborted) => Some (m', Aborted)
  | Some (m', Undef) => Some (m', Undef)
  end.

End Parser.

(** ** A reference environment

    The theorems below hold for every [StdConv]. To run the parser on
    concrete tokens, the conversions to integers are instantiated by the
    behaviour of the [strtol] family in the C locale with a 32-bit [int]
    and a 64-bit [long], on which [std::stoi], [std::stol] and
    [std::stoul] are built. The conversions to [float] and [double] are
    instantiated for finite decimal literals only, kept as a mantissa
    with a decimal exponent: the other texts [strtod] reads (hexadecimal
    literals, infinities, NaN), its range errors and the rounding to the
    binary format are not represented. No statement of this development
    evaluates a floating conversion of the reference environment; what
    is said of floating values holds for every [StdConv]. *)
Module Reference.

Definition isspace (a : ascii) : bool :=
  let n := nat_of_ascii a in
  ((n =? 32) || ((9 <=? n) && (n <=? 13)))%nat.

Fixpoint skip_space (s : string) : string :=
  match s with
  | String a r => if isspace a then skip_space r else s
  | EmptyString => s
  end.

Definition digit (a : ascii) : option Z :=
  let n := Z.of_nat (nat_of_ascii a) in
  if (48 <=? n) && (n <=? 57) then Some (n - 48) else None.

(** The longest prefix of decimal digits: its value, how many digits it
    has, and the text behind it. *)
Fixpoint digits (s : string) (acc : Z) (count : nat) : Z * nat * string :=
  match s with
  | String a r =>
      match digit a with
      | Some d => digits r (10 * acc + d) (S count)
      | None => (acc, count, s)
      end
  | EmptyString => (acc, count, s)
  end.

(** An optional sign; [true] for [-]. *)
Definition sign (s : string) : bool * string :=
  match s with
  | String "-" r => (true, r)
  | String "+" r => (false, r)
  | _ => (false, s)
  end.

(** White space, sign, digits: [None] when there is no digit. *)
Definition integer (s : string) : option (bool * Z) :=
  let '(neg, r) := sign (skip_space s) in
  let '(n, count, _) := digits r 0 0 in
  if (count =? 0)%nat then None else Some (neg, n).

Definition signed_in (lo hi : Z) (s : string) : exn + Z :=
  match integer s with
  | None => inl invalid_argument
  | Some (neg, n) =>
      let z := if neg then - n else n in
      if (lo <=? z) && (z <=? hi) then inr z else inl out_of_range
  end.

(** [strtoul] accepts a sign and negates modulo [2 ^ 64]. *)
Definition unsigned_long (s : string) : exn + Z :=
  match integer s with
  | None => inl invalid_argument
  | Some (neg, n) =>
      if n <? 2 ^ 64 then inr (if neg then (- n) mod 2 ^ 64 else n)
      else inl out_of_range
  end.

(** A decimal floating literal [m * 10 ^ e] as the pair [(m, e)]. *)
Definition decimal (s : string) : exn + Z * Z :=
  let '(neg, r) := sign (skip_space s) in
  let '(ip, icount, r1) := digits r 0 0 in
  let '(m, fcount, r2) :=
    match r1 with
    | String "." f => digits f ip 0
    | _ => (ip, 0%nat, r1)
    end in
  if (icount + fcount =? 0)%nat then inl invalid_argument
  else
    let e :=
      match r2 with
      | String c x =>
          if bool_decide (c = "e"%char) || bool_decide (c = "E"%char) then
            let '(eneg, x') := sign x in
            let '(n, ecount, _) := digits x' 0 0 in
            if (ecount =? 0)%nat then 0 else if eneg then - n else n
          else 0
      | EmptyString => 0
      end in
    inr (if neg then - m else m, e - Z.of_nat fcount).

Definition conv : StdConv := {|
  float := Z * Z;
  double := Z * Z;
  float_zero := (0, 0);
  double_zero := (0, 0);
  stoi := signed_in (- 2 ^ 31) (2 ^ 31 - 1);
  stol := signed_in (- 2 ^ 63) (2 ^ 63 - 1);
  stoul := unsigned_long;
  stof := decimal;
  stod := decimal
|}.

End Reference.

(** ** The schemas of the two example programs *)

Section Examples.

Context {C : StdConv}.

Definition empty_memory : Memory := mkMemory [] [].

(** [examples/values.cpp]: the library owns the targets. [size_t] is
    [unsigned long]. *)
Definition values_cpp (strict : bool) : M Params :=
  P <- add_value TBool ["-a"] false (Params_new strict) ;;
  P <- add_value TULong ["-c"; "--count"] false P ;;
  P <- add_value TFloat ["-i"; "--interval"] false P ;;
  add_value TString ["destination"] true P.

(** [examples/overview.cpp]: the targets are variables of [main], which
    hold [false], [10], [interval] (1.0 in the example) and the empty
    string; [destination] is declared with an empty list of names. *)
Definition overview_variables (interval : float) : Memory :=
  mkMemory [] [VBool false; VULong 10; VFloat interval; VString ""].

Definition overview_cpp (strict : bool) : M Params :=
  P <- add TBool 0 ["-a"] false (Params_new strict) ;;
  P <- add TULong 1 ["-c"; "--count"] false P ;;
  P <- add TFloat 2 ["-i"; "--interval"] false P ;;
  add TString 3 [] true P.

End Examples.

Section Programs.

Context {C : StdConv}.

(** A [main] in the manner of the examples: the schema is declared on a
    fresh memory, then the tokens are parsed. *)
Definition run_main (schema : M Params) (fuel : nat) (argv : list string)
    : option (Memory * result unit) :=
  match schema empty_memory with
  | (m, Ret P) => parse fuel P argv m
  | (m, Throw e) => Some (m, Throw e)
  | (m, Aborted) => Some (m, Aborted)
  | (m, Undef) => Some (m, Undef)
  end.

(** A single option of type [T] under the aliases [names]. *)
Definition one_option (strict : bool) (T : ty) (names : list string) : M Params :=
  add_value T names false (Params_new strict).

(** A flag [-a] and an option [-b] of type [T]. *)
Definition flag_and_option (strict : bool) (T : ty) : M Params :=
  P <- add_value TBool ["-a"] false (Params_new strict) ;;
  add_value T ["-b"] false P.

(** A token which is looked up as a long option: it starts with two
    markers and is not the terminator. *)
Definition is_long_token (arg : string) : bool :=
  bool_decide (Str.at_ 0 arg = "-"%char)
  && bool_decide (Str.at_ 1 arg = "-"%char)
  && negb (bool_decide (arg = "--")).

(** The alias a long token is looked up under. *)
Definition long_key (arg : string) : string :=
  match Str.find "=" arg with
  | Some i => Str.take i arg
  | None => arg
  end.

(** An alias with a single marker and more than one character behind
    it, such as [-ab]. *)
Definition single_dash_long (name : string) : bool :=
  match name with
  | String a (String b (String _ _)) =>
      bool_decide (a = "-"%char) && negb (bool_decide (b = "-"%char))
  | _ => false
  end.

(** The aliases the scan can look up: [-x] for a character [x] of a
    token with short options, and keys of long tokens. *)
Definition short_key (name : string) : bool :=
  match name with
  | String a (String _ EmptyString) => bool_decide (a = "-"%char)
  | _ => false
  end.

Definition double_dash (name : string) : bool :=
  match name with
  | String a (String b _) => bool_decide (a = "-"%char) && bool_decide (b = "-"%char)
  | _ => false
  end.

(** The parameter objects a scan can reach. *)
Definition reachable (P : Params) (q : ptr) : Prop :=
  q ∈ positional_ P
  ∨ ∃ name, map_ P !! name = Some q ∧ (short_key name = true ∨ double_dash name = true).

(** The parameter objects the audit at the end of [parse] visits. *)
Definition audited (P : Params) (p : ptr) : Prop :=
  p ∈ (map_to_list (map_ P)).*2 \/ p ∈ positional_ P.

(** No object holds [false] in [found_]. *)
Definition never_false (m : Memory) : Prop :=
  forall p o, objs m !! p = Some o -> found_ o <> Some false.

(** [P] without its alias table. *)
Definition without_aliases (P : Params) : Params :=
  mkParams (strict_ P) ∅ (positional_ P) (values_ P).

(** What a scan may change: the objects it can reach, in their [found_]
    only, and the variables those objects refer to. *)
Definition frame (P : Params) (m m' : Memory) : Prop :=
  length (objs m') = length (objs m)
  /\ (forall q, ~ reachable P q -> objs m' !! q = objs m !! q)
  /\ (forall q o', objs m' !! q = Some o' ->
        exists o, objs m !! q = Some o /\ (o' = o \/ o' = mark_found o))
  /\ (forall a : addr,
        (forall q o, reachable P q -> objs m !! q = Some o -> target_ o <> a) ->
        vars m' !! a = vars m !! a).

(** The registry and the memory [flag_and_option] builds for a string
    option. *)
Definition cluster_registry : Params :=
  mkParams true (<["-b" := 1%nat]> (<["-a" := 0%nat]> ∅)) [] [0; 1]%nat.

Definition cluster_memory : Memory :=
  mkMemory [mkParam TBool 0 ["-a"] (Some true) false None;
            mkParam TString 1 ["-b"] (Some true) false None]
           [VBool false; VString ""].

(** A flag [-a] and a positional string parameter [file]. *)
Definition flag_and_file : M Params :=
  P <- add_value TBool ["-a"] false (Params_new true) ;;
  add_value TString ["file"] false P.

Definition file_registry : Params :=
  mkParams true (<["file" := 1%nat]> (<["-a" := 0%nat]> ∅)) [1%nat] [0; 1]%nat.

Definition file_memory : Memory :=
  mkMemory [mkParam TBool 0 ["-a"] (Some true) false None;
            mkParam TString 1 ["file"] (Some false) false None]
           [VBool false; VString ""].

(** A string option declared as [-ab] next to the flags [-a] and [-b]. *)
Definition dash_ab : M Params :=
  P <- add_value TString ["-ab"] false (Params_new true) ;;
  P <- add_value TBool ["-a"] false P ;;
  add_value TBool ["-b"] false P.

Definition dash_ab_registry : Params :=
  mkParams true (<["-b" := 2%nat]> (<["-a" := 1%nat]> (<["-ab" := 0%nat]> ∅)))
           [] [0; 1; 2]%nat.

Definition dash_ab_memory : Memory :=
  mkMemory [mkParam TString 0 ["-ab"] (Some true) false None;
            mkParam TBool 1 ["-a"] (Some true) false None;
            mkParam TBool 2 ["-b"] (Some true) false None]
           [VString ""; VBool false; VBool false].

(** A required string option [-a] whose alias is declared again for a
    flag: the table keeps the last declaration only. *)
Definition declared_twice : M Params :=
  P <- add_value TString ["-a"] true (Params_new true) ;;
  add_value TBool ["-a"] false P.

(** The memory after [-ab -a] was parsed against it. *)
Definition dash_ab_parsed : Memory :=
  mkMemory [mkParam TString 0 ["-ab"] (Some true) false None;
            mkParam TBool 1 ["-a"] (Some true) false (Some true);
            mkParam TBool 2 ["-b"] (Some true) false (Some true)]
           [VString ""; VBool true; VBool true].

End Programs.

(** ** Notions used to state what the registry and the scan keep *)

Section Notions.

Context {C : StdConv}.

(** The type a value of a target variable has. *)
Definition type_of (v : target) : ty :=
  match v with
  | VBool _ => TBool | VString _ => TString | VInt _ => TInt
  | VUInt _ => TUInt | VLong _ => TLong | VULong _ => TULong
  | VFloat _ => TFloat | VDouble _ => TDouble
  end.

(** The variable each parameter refers to exists and holds a value of the
    parameter's type, as C++ typing of [T &target_] has it. *)
Definition well_typed (m : Memory) : Prop :=
  forall p o, objs m !! p = Some o ->
    exists v, vars m !! target_ o = Some v /\ type_of v = T_ o.

(** The pointers held by the registry point at objects. *)
Definition live (P : Params) (m : Memory) : Prop :=
  (forall name p, map_ P !! name = Some p -> (p < length (objs m))%nat)
  /\ (forall p, p ∈ positional_ P -> (p < length (objs m))%nat).

(** A list of names in which a name that is not an option comes behind one
    that is. *)
Definition bare_after_option (names : list string) : Prop :=
  exists l1 a l2 b l3,
    names = (l1 ++ a :: l2 ++ b :: l3)%list /\ is_option a = true /\ is_option b = false.

(** What is left to do for the scan: the tokens not yet consumed and the
    positional parameters not yet used. *)
Definition measure (P : Params) (c : cursor) : nat :=
  (length (start c) + (length (positional_ P) - next c))%nat.

(** No alias which starts with two markers designates a [Param<bool>]. *)
Definition no_long_flag (P : Params) (m : Memory) : Prop :=
  forall name p o,
    map_ P !! name = Some p -> double_dash name = true ->
    objs m !! p = Some o -> T_ o <> TBool.

(** What a token of short options made of flags may change: objects are
    marked found, variables are set to [true]. *)
Definition flags_only (m m' : Memory) : Prop :=
  (forall p o, objs m !! p = Some o ->
     objs m' !! p = Some o \/ objs m' !! p = Some (mark_found o))
  /\ length (vars m') = length (vars m)
  /\ (forall a : addr, vars m' !! a = vars m !! a \/ vars m' !! a = Some (VBool true)).

(** A [size_t] option declared as in the examples, on its own. *)
Definition count_registry : Params :=
  mkParams true (<["--count" := 0%nat]> (<["-c" := 0%nat]> ∅)) [] [0%nat].

Definition count_memory : Memory :=
  mkMemory [mkParam TULong 0 ["-c"; "--count"] (Some true) false None] [VULong 0].

(** A positional parameter of type [bool]. *)
Definition switch_registry : Params :=
  mkParams true (<["on" := 0%nat]> ∅) [0%nat] [0%nat].

Definition switch_memory : Memory :=
  mkMemory [mkParam TBool 0 ["on"] (Some false) false None] [VBool false].

(** A required positional string parameter, as [destination] in
    [values.cpp]. *)
Definition required_file_registry : Params :=
  mkParams true (<["file" := 0%nat]> ∅) [0%nat] [0%nat].

Definition required_file_memory : Memory :=
  mkMemory [mkParam TString 0 ["file"] (Some false) true None] [VString ""].

(** Every parameter was declared with a name: its [option_] has a value. *)
Definition class_assigned (m : Memory) : Prop :=
  forall p o, objs m !! p = Some o -> option_ o <> None.

(** The memory of [flag_and_file] after the token [x] was parsed. *)
Definition file_parsed : Memory :=
  mkMemory [mkParam TBool 0 ["-a"] (Some true) false None;
            mkParam TString 1 ["file"] (Some false) false (Some true)]
           [VBool false; VString "x"].

(** The memory of [required_file_registry] after the token [x] was
    parsed. *)
Definition required_file_parsed : Memory :=
  mkMemory [mkParam TString 0 ["file"] (Some false) true (Some true)] [VString "x"].

(** The parameters which the characters [chars] of a token of short
    options designate: those entered under [-x] for a character [x] of
    the token. *)
Definition designated (P : Params) (chars : string) (p : ptr) : Prop :=
  exists ch, ch ∈ list_ascii_of_string chars
             /\ map_ P !! String "-" (String ch EmptyString) = Some p.

(** No positional parameter is an option: [add] appends a parameter to
    [positional_] only when none of its names is one. *)
Definition positional_not_option (P : Params) (m : Memory) : Prop :=
  forall p o, p ∈ positional_ P -> objs m !! p = Some o -> option_ o <> Some true.

(** A flag declared under a long alias only, before and after it was
    set. *)
Definition verbose_registry : Params :=
  mkParams true (<["--verbose" := 0%nat]> ∅) [] [0%nat].

Definition verbose_memory : Memory :=
  mkMemory [mkParam TBool 0 ["--verbose"] (Some true) false None] [VBool false].

Definition verbose_set : Memory :=
  mkMemory [mkParam TBool 0 ["--verbose"] (Some true) false (Some true)] [VBool true].

(** The schema of [dash_ab] with the option [-ab] declared required. *)
Definition dash_ab_required : M Params :=
  P <- add_value TString ["-ab"] true (Params_new true) ;;
  P <- add_value TBool ["-a"] false P ;;
  add_value TBool ["-b"] false P.

End Notions.

(** * Properties *)

Section Basics.

Context {C : StdConv}.

Lemma bind_ret {A B} (c : M A) (k : A -> M B) m m' a :
  c m = (m', Ret a) -> bind c k m = k a m'.
Proof. intros H. unfold bind. now rewrite H. Qed.

Lemma bind_not_ret {A B} (c : M A) (k : A -> M B) m m' r :
  c m = (m', r) -> (forall a, r <> Ret a) ->
  exists r', bind c k m = (m', r') /\ forall b, r' <> Ret b.
Proof.
  intros H Hr. unfold bind. rewrite H.
  destruct r; [now destruct (Hr a) | eexists; split; [reflexivity | discriminate] ..].
Qed.

(** A long token without [=] is longer than two characters, so [value]
    takes the text behind the two markers and never looks at the token
    that follows: the branch written for a short option with an appended
    value also catches the long option. *)
Lemma value_token_longer_than_two (o : Param) opt rest :
  option_ o = Some true ->
  Str.find "=" opt = None ->
  (2 < Str.size opt)%nat ->
  value o (opt :: rest) = Ret (Str.substr 2 opt, 1).
Proof.
  intros Ho Hf Hs. unfold value. rewrite Ho, Hf.
  destruct (2 <? Str.size opt)%nat eqn:E; [reflexivity |].
  apply Nat.ltb_ge in E. lia.
Qed.

(** The constructor never fails: its assertion is guarded by [first],
    which stays true. *)
Lemma ParamBase_names_first names o :
  exists o', ParamBase_names true names o = Ret o'.
Proof.
  revert o. induction names as [| name rest IH]; intros o; simpl; eauto.
Qed.

Lemma value_equals (o : Param) opt rest i :
  option_ o = Some true ->
  Str.find "=" opt = Some i ->
  value o (opt :: rest) = Ret (Str.substr (i + 1) opt, 1).
Proof. intros Ho Hf. unfold value. now rewrite Ho, Hf. Qed.

(** Only a two-character option token reaches the branch for a value in
    a token of its own; it asserts that there is a following token. *)
Lemma value_separate_token (o : Param) opt rest :
  option_ o = Some true ->
  Str.find "=" opt = None ->
  (Str.size opt <= 2)%nat ->
  value o (opt :: rest) =
    match rest with
    | [] => Aborted
    | v :: _ => Ret (v, 2)
    end.
Proof.
  intros Ho Hf Hs. unfold value. rewrite Ho, Hf.
  destruct (2 <? Str.size opt)%nat eqn:E; [| reflexivity].
  apply Nat.ltb_lt in E. lia.
Qed.

Lemma value_positional (o : Param) opt rest :
  option_ o = Some false -> value o (opt :: rest) = Ret (opt, 1).
Proof. intros Ho. unfold value. now rewrite Ho. Qed.

(** An iteration which hands back the cursor it was given, and does so
    again from the memory it leaves, keeps the loop running for ever. *)
Lemma scan_stutter (P : Params) (c : cursor) (m m' : Memory) :
  start c <> [] ->
  iteration P c m = (m', Ret c) ->
  iteration P c m' = (m', Ret c) ->
  forall fuel, scan fuel P c m = None.
Proof.
  intros Hs H1 H2.
  assert (Hloop : forall fuel, scan fuel P c m' = None).
  { induction fuel as [| fuel IH]; simpl.
    - destruct (start c); [contradiction | reflexivity].
    - destruct (start c); [contradiction |]. now rewrite H2. }
  intros [| fuel]; simpl.
  - destruct (start c); [contradiction | reflexivity].
  - destruct (start c); [contradiction |]. rewrite H1. apply Hloop.
Qed.

Lemma parse_of_scan_none fuel (P : Params) argv m :
  scan fuel P (mkCursor argv 0 false) m = None -> parse fuel P argv m = None.
Proof. intros H. unfold parse. now rewrite H. Qed.

End Basics.

Section Dispatch.

Context {C : StdConv}.

Lemma long_token_not_positional (c : cursor) arg :
  positional_onward c = false ->
  is_long_token arg = true ->
  is_positional_token c arg = false /\ arg <> "--"
  /\ Str.at_ 1 arg = "-"%char.
Proof.
  unfold is_long_token, is_positional_token. intros -> H.
  apply andb_prop in H as [H H3]. apply andb_prop in H as [H0 H1].
  apply bool_decide_eq_true in H0, H1.
  apply negb_true_iff, bool_decide_eq_false in H3.
  repeat split; try assumption.
  destruct arg as [| a [| b r]]; cbn in H0, H1; try discriminate.
  subst a. cbn.
  rewrite (bool_decide_eq_false_2 (String "-" (String b r) = "")) by discriminate.
  rewrite (bool_decide_eq_false_2 (String "-" (String b r) = "-")) by discriminate.
  reflexivity.
Qed.

(** A long token in the scanning state goes to the long-option branch. *)
Lemma iteration_long (P : Params) (c : cursor) arg rest m :
  start c = arg :: rest ->
  positional_onward c = false ->
  is_long_token arg = true ->
  iteration P c m = long_rule P c arg m.
Proof.
  intros Hs Hp Hl. destruct (long_token_not_positional c arg Hp Hl) as (H1 & H2 & H3).
  unfold iteration. rewrite Hs, H1.
  rewrite bool_decide_eq_false_2 by exact H2.
  rewrite bool_decide_eq_true_2 by exact H3. reflexivity.
Qed.

(** An unmatched long token in strict mode: the exception. *)
Lemma long_unmatched_strict (P : Params) (c : cursor) arg rest m :
  start c = arg :: rest ->
  positional_onward c = false ->
  is_long_token arg = true ->
  map_ P !! long_key arg = None ->
  strict_ P = true ->
  iteration P c m = (m, Throw (Exception "Unknown long option.")).
Proof.
  intros Hs Hp Hl Hm Hst. rewrite (iteration_long P c arg rest m Hs Hp Hl).
  unfold long_rule. fold (long_key arg). now rewrite Hm, Hst.
Qed.

(** An unmatched long token in lenient mode: nothing is thrown, and
    [start] is not moved either. *)
Lemma long_unmatched_lenient (P : Params) (c : cursor) arg rest m :
  start c = arg :: rest ->
  positional_onward c = false ->
  is_long_token arg = true ->
  map_ P !! long_key arg = None ->
  strict_ P = false ->
  iteration P c m = (m, Ret c).
Proof.
  intros Hs Hp Hl Hm Hst. rewrite (iteration_long P c arg rest m Hs Hp Hl).
  unfold long_rule. fold (long_key arg). now rewrite Hm, Hst.
Qed.

Lemma long_unmatched_lenient_loops (P : Params) (c : cursor) arg rest m :
  start c = arg :: rest ->
  positional_onward c = false ->
  is_long_token arg = true ->
  map_ P !! long_key arg = None ->
  strict_ P = false ->
  forall fuel, scan fuel P c m = None.
Proof.
  intros Hs Hp Hl Hm Hst.
  pose proof (long_unmatched_lenient P c arg rest m Hs Hp Hl Hm Hst) as H.
  apply (scan_stutter P c m m); [rewrite Hs; discriminate | exact H | exact H].
Qed.

(** A positional token when no positional parameter is left. *)
Lemma positional_exhausted_strict (P : Params) (c : cursor) arg rest m :
  start c = arg :: rest ->
  is_positional_token c arg = true ->
  positional_ P !! next c = None ->
  strict_ P = true ->
  iteration P c m = (m, Throw (Exception "Unknown positional parameter.")).
Proof.
  intros Hs Hp Hn Hst. unfold iteration, positional_rule.
  now rewrite Hs, Hp, Hn, Hst.
Qed.

Lemma positional_exhausted_lenient (P : Params) (c : cursor) arg rest m :
  start c = arg :: rest ->
  is_positional_token c arg = true ->
  positional_ P !! next c = None ->
  strict_ P = false ->
  iteration P c m = (m, Ret c).
Proof.
  intros Hs Hp Hn Hst. unfold iteration, positional_rule.
  now rewrite Hs, Hp, Hn, Hst.
Qed.

Lemma positional_exhausted_lenient_loops (P : Params) (c : cursor) arg rest m :
  start c = arg :: rest ->
  is_positional_token c arg = true ->
  positional_ P !! next c = None ->
  strict_ P = false ->
  forall fuel, scan fuel P c m = None.
Proof.
  intros Hs Hp Hn Hst.
  pose proof (positional_exhausted_lenient P c arg rest m Hs Hp Hn Hst) as H.
  apply (scan_stutter P c m m); [rewrite Hs; discriminate | exact H | exact H].
Qed.

(** [Param<bool>::parse]: the target and [found_] are set, 0 is
    returned. *)
Lemma Param_parse_bool (p : ptr) (o : Param) start m :
  objs m !! p = Some o ->
  T_ o = TBool ->
  start <> [] ->
  Param_parse p start m =
    (mkMemory (<[p := mark_found o]> (objs m))
              (<[target_ o := VBool true]> (vars m)),
     Ret 0).
Proof.
  intros Ho HT Hs. unfold Param_parse, bind, deref. rewrite Ho.
  rewrite bool_decide_eq_false_2 by exact Hs. simpl. rewrite HT.
  unfold assign_target. rewrite Ho. unfold set_found. simpl. now rewrite Ho.
Qed.

(** A flag reached through a long token: [start += 0]. *)
Lemma long_flag_keeps_cursor (P : Params) (c : cursor) arg rest m p o :
  start c = arg :: rest ->
  positional_onward c = false ->
  is_long_token arg = true ->
  map_ P !! long_key arg = Some p ->
  objs m !! p = Some o ->
  T_ o = TBool ->
  iteration P c m =
    (mkMemory (<[p := mark_found o]> (objs m))
              (<[target_ o := VBool true]> (vars m)),
     Ret c).
Proof.
  intros Hs Hp Hl Hm Ho HT. rewrite (iteration_long P c arg rest m Hs Hp Hl).
  unfold long_rule. fold (long_key arg). rewrite Hm.
  erewrite bind_ret.
  2:{ apply Param_parse_bool; [exact Ho | exact HT | rewrite Hs; discriminate]. }
  unfold ret, advance. simpl. now destruct c.
Qed.

Lemma long_flag_loops (P : Params) (c : cursor) arg rest m p o :
  start c = arg :: rest ->
  positional_onward c = false ->
  is_long_token arg = true ->
  map_ P !! long_key arg = Some p ->
  objs m !! p = Some o ->
  T_ o = TBool ->
  forall fuel, scan fuel P c m = None.
Proof.
  intros Hs Hp Hl Hm Ho HT.
  pose proof (long_flag_keeps_cursor P c arg rest m p o Hs Hp Hl Hm Ho HT) as H1.
  eapply scan_stutter; [rewrite Hs; discriminate | exact H1 |].
  set (m' := mkMemory (<[p := mark_found o]> (objs m))
                      (<[target_ o := VBool true]> (vars m))).
  assert (Ho' : objs m' !! p = Some (mark_found o)).
  { simpl. apply list_lookup_insert_eq. now apply lookup_lt_Some in Ho. }
  rewrite (long_flag_keeps_cursor P c arg rest m' p (mark_found o) Hs Hp Hl Hm Ho' HT).
  subst m'. simpl. f_equal. f_equal.
  - now rewrite list_insert_insert_eq.
  - now rewrite list_insert_insert_eq.
Qed.

End Dispatch.

Section Defects.

Context {C : StdConv}.

Lemma scan_S fuel (P : Params) (c c' : cursor) (m m' : Memory) :
  start c <> [] ->
  iteration P c m = (m', Ret c') ->
  scan (S fuel) P c m = scan fuel P c' m'.
Proof.
  intros Hs H. simpl. destruct (start c); [contradiction |]. now rewrite H.
Qed.

(** C3: [parse] does not always terminate. In lenient mode a positional
    token which arrives when every positional parameter is used up is
    not skipped: the branch leaves [start] where it is and the loop runs
    on the same token for ever. With the schema of [values.cpp] declared
    lenient and the tokens [dest extra], no amount of fuel lets [parse]
    return. *)
Theorem lenient_surplus_positional_never_returns (fuel : nat) :
  run_main (values_cpp false) fuel ["dest"; "extra"] = None.
Proof.
  unfold run_main.
  destruct (values_cpp false empty_memory) as [m r] eqn:E.
  vm_compute in E. injection E as <- <-.
  apply parse_of_scan_none.
  destruct fuel as [| fuel]; [reflexivity |].
  erewrite scan_S; [| discriminate | vm_compute; reflexivity].
  eapply positional_exhausted_lenient_loops; reflexivity.
Qed.

(** C5: a flag matched by a long token is set and marked found, but the
    token is not consumed: [Param<bool>::parse] returns 0 and the
    long-option branch adds just that to [start]. The iteration hands
    back the cursor it was given and [parse] never returns. *)
Theorem long_flag_token_is_never_consumed :
  exists P m,
    one_option true TBool ["--verbose"] empty_memory = (m, Ret P)
    /\ (let c := mkCursor ["--verbose"] 0 false in
        iteration P c m =
          (mkMemory [mkParam TBool 0 ["--verbose"] (Some true) false (Some true)]
                    [VBool true],
           Ret c))
    /\ forall fuel, parse fuel P ["--verbose"] m = None.
Proof.
  destruct (one_option true TBool ["--verbose"] empty_memory) as [m r] eqn:E.
  vm_compute in E. injection E as <- <-.
  eexists _, _. split; [reflexivity |]. split; [vm_compute; reflexivity |].
  intros fuel. apply parse_of_scan_none.
  eapply long_flag_loops; reflexivity.
Qed.

(** C6: an unmatched long token raises the exception in strict mode; in
    lenient mode it is not skipped, [start] stays on it and [parse]
    never returns. *)
Theorem unmatched_long_token_strict_throws_lenient_loops :
  run_main (values_cpp true) 1 ["--bogus"; "dest"]
    = match values_cpp true empty_memory with
      | (m, _) => Some (m, Throw (Exception "Unknown long option."))
      end
  /\ forall fuel, run_main (values_cpp false) fuel ["--bogus"; "dest"] = None.
Proof.
  split; [vm_compute; reflexivity |].
  intros fuel. unfold run_main.
  destruct (values_cpp false empty_memory) as [m r] eqn:E.
  vm_compute in E. injection E as <- <-.
  apply parse_of_scan_none.
  eapply long_unmatched_lenient_loops; reflexivity.
Qed.

(** C1: the two spellings do not give the same value. With a string
    option [--count], the token [--count=10] stores [10] and the scan
    ends; the tokens [--count 10] store [count], the text behind the
    markers, with an increment of 1, and [10] is then scanned as a
    positional token. *)
Theorem long_option_separate_value_differs :
  exists P m,
    one_option true TString ["--count"] empty_memory = (m, Ret P)
    /\ parse 2 P ["--count=10"] m
       = Some (mkMemory [mkParam TString 0 ["--count"] (Some true) false (Some true)]
                        [VString "10"],
               Ret tt)
    /\ iteration P (mkCursor ["--count"; "10"] 0 false) m
       = (mkMemory [mkParam TString 0 ["--count"] (Some true) false (Some true)]
                   [VString "count"],
          Ret (mkCursor ["10"] 0 false))
    /\ parse 2 P ["--count"; "10"] m
       = Some (mkMemory [mkParam TString 0 ["--count"] (Some true) false (Some true)]
                        [VString "count"],
               Throw (Exception "Unknown positional parameter.")).
Proof.
  destruct (one_option true TString ["--count"] empty_memory) as [m r] eqn:E.
  vm_compute in E. injection E as <- <-.
  eexists _, _. split; [reflexivity |].
  repeat split; vm_compute; reflexivity.
Qed.

(** C8: a long option without [=] as the last token does not fail. Its
    value is the text behind the markers, and [parse] returns normally
    with that text stored. *)
Theorem trailing_long_option_takes_its_name :
  run_main (one_option true TString ["--name"]) 2 ["--name"]
    = Some (mkMemory [mkParam TString 0 ["--name"] (Some true) false (Some true)]
                     [VString "name"],
            Ret tt).
Proof. vm_compute. reflexivity. Qed.

(** The short option as the last token stops at the assertion in
    [value]. *)
Lemma trailing_short_option_aborts :
  run_main (one_option true TString ["-n"]) 2 ["-n"]
    = Some (mkMemory [mkParam TString 0 ["-n"] (Some true) false None]
                     [VString ""],
            Aborted).
Proof. vm_compute. reflexivity. Qed.

(** C4: [found_] is not initialised by the constructor: whatever the
    arguments, the object it makes has no value in [found_]. With the
    schema of [values.cpp] and no token, the required [destination] was
    never matched, and [check] reads the member which was never
    assigned: the exception is not what the code is bound to do. *)
Theorem required_unmatched_reads_unassigned_found :
  (forall T target names required,
      exists o, Param_new T target names required
                = Ret (mkParam T target names o required None))
  /\ exists m, run_main (values_cpp true) 0 [] = Some (m, Undef).
Proof.
  split.
  - intros T target names required. unfold Param_new.
    destruct (ParamBase_names_first names None) as [o ->]. eauto.
  - eexists. vm_compute. reflexivity.
Qed.

End Defects.

Section Registration.

Context {C : StdConv}.

(** C9 (as the code has it): [add] accepts an empty list of names. No
    alias is entered in the table and the new parameter is appended to
    the positional ones, as [overview.cpp] does for [destination]. *)
Theorem add_accepts_empty_names (T : ty) (target : addr) (required : bool)
    (P : Params) (m : Memory) :
  add T target [] required P m =
    (mkMemory (objs m ++ [mkParam T target [] None required None]) (vars m),
     Ret (mkParams (strict_ P) (map_ P) (positional_ P ++ [length (objs m)])
            (values_ P))).
Proof. reflexivity. Qed.

End Registration.

Section Conversion.

Context {C : StdConv}.

(** [Param<T>::parse] for the seven types with a value. *)
Lemma Param_parse_value (p : ptr) (o : Param) start m :
  objs m !! p = Some o ->
  T_ o <> TBool ->
  start <> [] ->
  Param_parse p start m =
    match value o start with
    | Ret (text, inc) =>
        match conversion (T_ o) text with
        | inr v =>
            (mkMemory (<[p := mark_found o]> (objs m))
                      (<[target_ o := v]> (vars m)),
             Ret inc)
        | inl e => (m, Throw e)
        end
    | Throw e => (m, Throw e)
    | Aborted => (m, Aborted)
    | Undef => (m, Undef)
    end.
Proof.
  intros Ho HT Hs. unfold Param_parse, bind, deref. rewrite Ho.
  rewrite bool_decide_eq_false_2 by exact Hs. simpl.
  destruct (T_ o) eqn:ET; try congruence;
    unfold lift; destruct (value o start) as [[text inc] | e | |]; try reflexivity;
    unfold conversion; cbn [fst snd];
    try match goal with
        | |- context [sum_map _ _ ?x] => destruct x as [e | v]
        end;
    cbn [sum_map of_sum id]; try reflexivity;
    unfold assign_target, set_found; cbn [objs vars]; rewrite Ho; cbn [objs vars];
    rewrite Ho; reflexivity.
Qed.

Lemma short_token_dispatch (P : Params) (c : cursor) arg rest m :
  start c = arg :: rest ->
  positional_onward c = false ->
  Str.at_ 0 arg = "-"%char ->
  Str.at_ 1 arg <> "-"%char ->
  (1 < Str.size arg)%nat ->
  iteration P c m = short_rule P c arg m.
Proof.
  intros Hs Hp H0 H1 Hz. unfold iteration, is_positional_token. rewrite Hs, Hp.
  destruct arg as [| a [| b r]]; cbn in H0, H1, Hz; try congruence; try lia.
  subst a.
  rewrite (bool_decide_eq_false_2 (String "-" (String b r) = "")) by discriminate.
  rewrite (bool_decide_eq_false_2 (String "-" (String b r) = "-")) by discriminate.
  rewrite (bool_decide_eq_true_2 (Str.at_ 0 (String "-" (String b r)) = "-"%char))
    by reflexivity.
  simpl.
  rewrite (bool_decide_eq_false_2 (String "-" (String b r) = "--")).
  2:{ intros E. inversion E. subst. apply H1. reflexivity. }
  rewrite (bool_decide_eq_false_2 (Str.at_ 1 (String "-" (String b r)) = "-"%char))
    by exact H1.
  reflexivity.
Qed.

(** A short option with a value as the last token: a token of two
    characters reaches the branch for a value in a token of its own, and
    the assertion there fails. *)
Lemma short_option_last_token_aborts (P : Params) (c : cursor) m ch (p : ptr)
    (o : Param) :
  start c = [String "-" (String ch EmptyString)] ->
  positional_onward c = false ->
  ch <> "-"%char ->
  ch <> "="%char ->
  map_ P !! String "-" (String ch EmptyString) = Some p ->
  objs m !! p = Some o ->
  T_ o <> TBool ->
  option_ o = Some true ->
  iteration P c m = (m, Aborted).
Proof.
  intros Hs Hp Hd He Hm Ho HT Hopt.
  rewrite (short_token_dispatch P c _ [] m Hs Hp eq_refl) by (cbn; congruence || lia).
  unfold short_rule. cbn [Str.substr short_options]. rewrite Hm, Hs.
  unfold bind at 1. unfold bind at 1.
  rewrite (Param_parse_value p o _ m Ho HT) by discriminate.
  rewrite value_separate_token; [reflexivity | exact Hopt | | cbn; lia].
  cbn [Str.find]. destruct (Ascii.eqb_spec "-" "="); [discriminate |].
  destruct (Ascii.eqb_spec ch "="); [contradiction | reflexivity].
Qed.

(** C2: an option with a value inside a token of combined short options
    does not get the token that follows. In the token [-ab], with [-a] a
    flag and [-b] an option with a value, the flag is set and [-b] is
    resolved against the same token: [value] takes its branch for a short
    option with an appended value and returns the text from the third
    character on, which is [b]. When the conversion of [b] succeeds the
    scan moves on by one token only, so what follows [-ab] is scanned
    next on its own; when it throws, the flag is set and nothing is
    stored for [-b]. The loop over the characters notes that combined
    options must not take arguments and leaves the check undone, so the
    defect is in the code. *)
Theorem cluster_option_value_is_cluster_text (P : Params) (m : Memory)
    (pa pb : ptr) (oa ob : Param) (rest : list string) (n : nat) :
  map_ P !! "-a" = Some pa ->
  map_ P !! "-b" = Some pb ->
  objs m !! pa = Some oa ->
  objs m !! pb = Some ob ->
  T_ oa = TBool ->
  T_ ob <> TBool ->
  option_ ob = Some true ->
  let m1 := mkMemory (<[pa := mark_found oa]> (objs m))
                     (<[target_ oa := VBool true]> (vars m)) in
  iteration P (mkCursor ("-ab" :: rest) n false) m =
    match conversion (T_ ob) "b" with
    | inr v =>
        (mkMemory (<[pb := mark_found ob]> (objs m1))
                  (<[target_ ob := v]> (vars m1)),
         Ret (mkCursor rest n false))
    | inl e => (m1, Throw e)
    end.
Proof.
  intros Ha Hb Hoa Hob HTa HTb Hopt m1.
  assert (Hne : pa <> pb) by (intros ->; congruence).
  rewrite (short_token_dispatch P (mkCursor ("-ab" :: rest) n false) "-ab" rest m
             eq_refl eq_refl eq_refl)
    by (cbn; discriminate || lia).
  unfold short_rule. cbn [start Str.substr short_options].
  change (String "-" (String "a" EmptyString)) with "-a".
  change (String "-" (String "b" EmptyString)) with "-b".
  rewrite Ha. unfold bind at 1. unfold bind at 1.
  rewrite (Param_parse_bool pa oa _ m Hoa HTa) by discriminate.
  fold m1. cbn [Z.ltb Z.compare]. cbn [short_options].
  change (String "-" (String "b" EmptyString)) with "-b".
  rewrite Hb. unfold bind at 1.
  assert (Hob1 : objs m1 !! pb = Some ob).
  { subst m1. simpl. rewrite list_lookup_insert_ne by exact Hne. exact Hob. }
  rewrite (Param_parse_value pb ob _ m1 Hob1 HTb) by discriminate.
  rewrite (value_token_longer_than_two ob "-ab" rest Hopt eq_refl) by (cbn; lia).
  cbn [Str.substr].
  destruct (conversion (T_ ob) "b") as [e | v]; reflexivity.
Qed.

End Conversion.

Section Terminator.

Context {C : StdConv}.

Lemma iteration_positional_onward (P : Params) (c : cursor) m :
  positional_onward c = true ->
  start c <> [] ->
  iteration P c m = positional_rule P c m.
Proof.
  intros Hp Hs. unfold iteration, is_positional_token.
  destruct (start c) as [| arg rest]; [contradiction |].
  now rewrite Hp.
Qed.

Lemma positional_rule_keeps_state (P : Params) (c c' : cursor) m m' :
  positional_rule P c m = (m', Ret c') ->
  positional_onward c' = positional_onward c.
Proof.
  unfold positional_rule.
  destruct (positional_ P !! next c) as [p |].
  - unfold bind. destruct (Param_parse p (start c) m) as [m1 [inc | e | |]];
      try discriminate.
    unfold ret. intros [= _ <-]. reflexivity.
  - destruct (strict_ P); [discriminate |]. unfold ret. now intros [= _ <-].
Qed.

Lemma scan_positional_onward fuel (P : Params) :
  forall (c : cursor) m,
    positional_onward c = true ->
    scan fuel P c m = scan fuel (without_aliases P) c m
    /\ forall m' c', scan fuel P c m = Some (m', Ret c') -> positional_onward c' = true.
Proof.
  induction fuel as [| fuel IH]; intros c m Hp; simpl.
  - destruct (start c); split; try reflexivity; try discriminate.
    now intros m' c' [= _ <-].
  - destruct (start c) as [| arg rest] eqn:Hs.
    + split; [reflexivity |]. now intros m' c' [= _ <-].
    + assert (Hne : start c <> []) by (rewrite Hs; discriminate).
      rewrite (iteration_positional_onward P c m Hp Hne).
      rewrite (iteration_positional_onward (without_aliases P) c m Hp Hne).
      change (positional_rule (without_aliases P) c m) with (positional_rule P c m).
      destruct (positional_rule P c m) as [m1 [c1 | e | |]] eqn:E;
        try (split; [reflexivity | discriminate]).
      apply positional_rule_keeps_state in E. rewrite Hp in E.
      apply (IH c1 m1 E).
Qed.

(** The part of the dispatch which holds in every case: the terminator
    is consumed without touching any parameter and sets
    [positional_onward]. From then on every iteration, whatever the
    token, is the positional branch of the loop and leaves
    [positional_onward] set; the scan of the remaining tokens does not
    depend on the alias table. A token handed to a positional string
    parameter which was declared under a bare name is stored as it
    stands. *)
Lemma terminator_makes_the_rest_positional (P : Params) :
  (forall rest n m,
      iteration P (mkCursor ("--" :: rest) n false) m
        = (m, Ret (mkCursor rest n true)))
  /\ (forall (c : cursor) m,
        positional_onward c = true ->
        start c <> [] ->
        iteration P c m = positional_rule P c m
        /\ forall m' c', iteration P c m = (m', Ret c') -> positional_onward c' = true)
  /\ (forall fuel (c : cursor) m,
        positional_onward c = true ->
        scan fuel P c m = scan fuel (without_aliases P) c m
        /\ forall m' c', scan fuel P c m = Some (m', Ret c') -> positional_onward c' = true)
  /\ (forall (c : cursor) m arg rest p o,
        positional_onward c = true ->
        start c = arg :: rest ->
        positional_ P !! next c = Some p ->
        objs m !! p = Some o ->
        T_ o = TString ->
        option_ o = Some false ->
        iteration P c m
          = (mkMemory (<[p := mark_found o]> (objs m))
                      (<[target_ o := VString arg]> (vars m)),
             Ret (mkCursor rest (S (next c)) true))).
Proof.
  split; [| split; [| split]].
  - intros rest n m. reflexivity.
  - intros c m Hp Hs. split; [exact (iteration_positional_onward P c m Hp Hs) |].
    intros m' c'. rewrite (iteration_positional_onward P c m Hp Hs). intros E.
    apply positional_rule_keeps_state in E. congruence.
  - intros fuel c m Hp. exact (scan_positional_onward fuel P c m Hp).
  - intros c m arg rest p o Hp Hs Hn Ho HT Hopt.
    rewrite (iteration_positional_onward P c m Hp) by (rewrite Hs; discriminate).
    unfold positional_rule. rewrite Hn.
    erewrite bind_ret.
    2:{ rewrite (Param_parse_value p o (start c) m Ho) by (rewrite ?HT, ?Hs; discriminate).
        rewrite Hs, (value_positional o arg rest Hopt), HT. reflexivity. }
    unfold ret. rewrite Hs, Hp. reflexivity.
Qed.

(** What the positional branch does with the token for a parameter of
    any type with a value, declared under a bare name: the token itself
    is converted; it is stored and consumed when the conversion succeeds,
    and the exception leaves the memory as it was. *)
Lemma terminator_named_positional (P : Params) (c : cursor) m arg rest
    (p : ptr) (o : Param) :
  positional_onward c = true ->
  start c = arg :: rest ->
  positional_ P !! next c = Some p ->
  objs m !! p = Some o ->
  T_ o <> TBool ->
  option_ o = Some false ->
  iteration P c m =
    match conversion (T_ o) arg with
    | inr v =>
        (mkMemory (<[p := mark_found o]> (objs m)) (<[target_ o := v]> (vars m)),
         Ret (mkCursor rest (S (next c)) true))
    | inl e => (m, Throw e)
    end.
Proof.
  intros Hp Hs Hn Ho HT Hopt.
  rewrite (iteration_positional_onward P c m Hp) by (rewrite Hs; discriminate).
  unfold positional_rule. rewrite Hn. unfold bind.
  rewrite (Param_parse_value p o (start c) m Ho HT) by (rewrite Hs; discriminate).
  rewrite Hs, (value_positional o arg rest Hopt).
  destruct (conversion (T_ o) arg) as [e | v]; [reflexivity |].
  unfold ret. rewrite Hp. reflexivity.
Qed.

(** A positional parameter which was declared without a name has no
    value in [option_]; the positional branch hands it the token, and
    [value] reads the member. *)
Lemma terminator_nameless_positional (P : Params) (c : cursor) m arg rest
    (p : ptr) (o : Param) :
  positional_onward c = true ->
  start c = arg :: rest ->
  positional_ P !! next c = Some p ->
  objs m !! p = Some o ->
  T_ o <> TBool ->
  option_ o = None ->
  iteration P c m = (m, Undef).
Proof.
  intros Hp Hs Hn Ho HT Hopt.
  rewrite (iteration_positional_onward P c m Hp) by (rewrite Hs; discriminate).
  unfold positional_rule. rewrite Hn. unfold bind.
  rewrite (Param_parse_value p o (start c) m Ho HT) by (rewrite Hs; discriminate).
  rewrite Hs. unfold value. rewrite Hopt. reflexivity.
Qed.

(** C7: after the terminator a token is not always bound to the next
    positional parameter. The dispatch is as claimed: [--] is consumed
    alone, sets [positional_onward], and the token [-a] which follows goes
    to the positional branch and not to the flag [-a]. But the positional
    parameter of [overview.cpp] was declared with an empty list of names,
    so the constructor never assigned its [option_], and [value] reads
    that member to decide whether the token is a positional value or an
    option with a value: what is stored for [destination], if anything,
    is not determined by the code. With the schema of [values.cpp], whose
    [destination] has a name, the same tokens store [-a] in it and leave
    the flag alone. *)
Theorem terminator_token_reads_unassigned_option (interval : float) :
  (exists P m,
      overview_cpp true (overview_variables interval) = (m, Ret P)
      /\ positional_ P = [3%nat]
      /\ objs m !! 3%nat = Some (mkParam TString 3 [] None true None)
      /\ iteration P (mkCursor ["--"; "-a"] 0 false) m
         = (m, Ret (mkCursor ["-a"] 0 true))
      /\ iteration P (mkCursor ["-a"] 0 true) m = (m, Undef)
      /\ parse 2 P ["--"; "-a"] m = Some (m, Undef)
      /\ vars m = [VBool false; VULong 10; VFloat interval; VString ""])
  /\ run_main (values_cpp true) 2 ["--"; "-a"]
     = Some (mkMemory
               [mkParam TBool 0 ["-a"] (Some true) false None;
                mkParam TULong 1 ["-c"; "--count"] (Some true) false None;
                mkParam TFloat 2 ["-i"; "--interval"] (Some true) false None;
                mkParam TString 3 ["destination"] (Some false) true (Some true)]
               [VBool false; VULong 0; VFloat float_zero; VString "-a"],
             Ret tt).
Proof.
  split.
  - destruct (overview_cpp true (overview_variables interval)) as [m r] eqn:E.
    vm_compute in E. injection E as <- <-.
    eexists _, _. split; [reflexivity |].
    repeat split; vm_compute; reflexivity.
  - vm_compute. reflexivity.
Qed.

End Terminator.

Section Frame.

Context {C : StdConv}.

Lemma frame_refl (P : Params) m : frame P m m.
Proof. unfold frame. repeat split; eauto. Qed.

Lemma frame_trans (P : Params) m1 m2 m3 :
  frame P m1 m2 -> frame P m2 m3 -> frame P m1 m3.
Proof.
  intros (L1 & U1 & T1 & V1) (L2 & U2 & T2 & V2). unfold frame.
  repeat split.
  - congruence.
  - intros q Hq. rewrite (U2 q Hq). apply (U1 q Hq).
  - intros q o3 H3. destruct (T2 q o3 H3) as (o2 & H2 & E2).
    destruct (T1 q o2 H2) as (o1 & H1 & E1). exists o1. split; [exact H1 |].
    destruct E2 as [-> | ->], E1 as [-> | ->]; auto.
  - intros a Ha. rewrite V2; [apply V1; exact Ha |].
    intros q o2 Hq H2. destruct (T1 q o2 H2) as (o1 & H1 & E1).
    destruct E1 as [-> | ->]; apply (Ha q o1 Hq H1).
Qed.

(** [Param<T>::parse] either leaves the memory as it is, or marks its
    object found and assigns its target. *)
Lemma Param_parse_memory (q : ptr) start m m' (r : result Z) :
  Param_parse q start m = (m', r) ->
  m' = m
  \/ exists o v, objs m !! q = Some o
       /\ m' = mkMemory (<[q := mark_found o]> (objs m)) (<[target_ o := v]> (vars m)).
Proof.
  destruct (objs m !! q) as [o |] eqn:Ho.
  2:{ unfold Param_parse, bind, deref. rewrite Ho. intros [= <- _]. now left. }
  destruct start as [| tok rest].
  { unfold Param_parse, bind, deref. rewrite Ho. simpl. intros [= <- _]. now left. }
  destruct (decide (T_ o = TBool)) as [HT | HT].
  - rewrite (Param_parse_bool q o _ m Ho HT) by discriminate.
    intros [= <- _]. right. eauto.
  - rewrite (Param_parse_value q o _ m Ho HT) by discriminate.
    destruct (value o (tok :: rest)) as [[text inc] | e | |];
      try (intros [= <- _]; now left).
    destruct (conversion (T_ o) text) as [e | v]; intros [= <- _]; [now left |].
    right. eauto.
Qed.

Lemma Param_parse_frame (P : Params) (q : ptr) start m m' (r : result Z) :
  reachable P q ->
  Param_parse q start m = (m', r) ->
  frame P m m'.
Proof.
  intros Hq H. apply Param_parse_memory in H as [-> | (o & v & Ho & ->)].
  { apply frame_refl. }
  unfold frame. cbn [objs vars]. repeat split.
  - apply length_insert.
  - intros p Hp. apply list_lookup_insert_ne. intros <-. contradiction.
  - intros p o' H'. destruct (decide (q = p)) as [<- | Hne].
    + rewrite list_lookup_insert_eq in H' by (now apply lookup_lt_Some in Ho).
      injection H' as <-. exists o. split; [exact Ho | now right].
    + rewrite list_lookup_insert_ne in H' by exact Hne. eauto.
  - intros a Ha. apply list_lookup_insert_ne. exact (Ha q o Hq Ho).
Qed.

Lemma short_options_frame (P : Params) start chars :
  forall inc m m' (r : result (option Z)),
    short_options P start chars inc m = (m', r) ->
    frame P m m'.
Proof.
  induction chars as [| ch rest IH]; intros inc m m' r; cbn [short_options].
  - intros [= <- _]. apply frame_refl.
  - destruct (map_ P !! String "-" (String ch EmptyString)) as [q |] eqn:Hq.
    + assert (Hr : reachable P q).
      { right. eexists. split; [exact Hq |]. now left. }
      unfold bind.
      destruct (Param_parse q start m) as [m1 [n | e | |]] eqn:E;
        try (intros [= <- _]; exact (Param_parse_frame P q _ _ _ _ Hr E)).
      pose proof (Param_parse_frame P q _ _ _ _ Hr E) as F1.
      destruct (0 <? n).
      * intros [= <- _]. exact F1.
      * intros H. exact (frame_trans P _ _ _ F1 (IH _ _ _ _ H)).
    + destruct (strict_ P).
      * intros [= <- _]. apply frame_refl.
      * apply IH.
Qed.

Lemma long_key_double_dash arg :
  Str.at_ 0 arg = "-"%char ->
  Str.at_ 1 arg = "-"%char ->
  double_dash (long_key arg) = true.
Proof.
  destruct arg as [| a [| b r]]; cbn; try discriminate.
  intros -> ->. unfold long_key. cbn.
  destruct (Str.find "=" r) as [i |]; reflexivity.
Qed.

Lemma iteration_frame (P : Params) (c : cursor) m m' (r : result cursor) :
  iteration P c m = (m', r) -> frame P m m'.
Proof.
  unfold iteration. destruct (start c) as [| arg rest] eqn:Hs.
  { intros [= <- _]. apply frame_refl. }
  destruct (is_positional_token c arg) eqn:Hpos.
  - unfold positional_rule.
    destruct (positional_ P !! next c) as [q |] eqn:Hq.
    + assert (Hr : reachable P q).
      { left. apply list_elem_of_lookup. eauto. }
      unfold bind. rewrite Hs.
      destruct (Param_parse q (arg :: rest) m) as [m1 [n | e | |]] eqn:E;
        intros [= <- _]; exact (Param_parse_frame P q _ _ _ _ Hr E).
    + destruct (strict_ P); intros [= <- _]; apply frame_refl.
  - destruct (bool_decide (arg = "--")).
    { intros [= <- _]. apply frame_refl. }
    unfold is_positional_token in Hpos.
    apply orb_false_elim in Hpos as [_ H0].
    apply negb_false_iff, bool_decide_eq_true in H0.
    destruct (bool_decide (Str.at_ 1 arg = "-"%char)) eqn:H1; cbn [negb].
    + apply bool_decide_eq_true in H1. unfold long_rule. fold (long_key arg).
      destruct (map_ P !! long_key arg) as [q |] eqn:Hq.
      * assert (Hr : reachable P q).
        { right. eexists. split; [exact Hq |]. right.
          now apply long_key_double_dash. }
        unfold bind.
        destruct (Param_parse q (start c) m) as [m1 [n | e | |]] eqn:E;
          intros [= <- _]; exact (Param_parse_frame P q _ _ _ _ Hr E).
      * destruct (strict_ P); intros [= <- _]; apply frame_refl.
    + unfold short_rule, bind.
      destruct (short_options P (start c) (Str.substr 1 arg) None m)
        as [m1 [[n |] | e | |]] eqn:E;
        intros [= <- _]; exact (short_options_frame P _ _ _ _ _ _ E).
Qed.

Lemma scan_frame fuel (P : Params) :
  forall (c : cursor) m m' (r : result cursor),
    scan fuel P c m = Some (m', r) -> frame P m m'.
Proof.
  induction fuel as [| fuel IH]; intros c m m' r; simpl.
  - destruct (start c); [| discriminate]. intros [= <- _]. apply frame_refl.
  - destruct (start c) as [| arg rest].
    { intros [= <- _]. apply frame_refl. }
    destruct (iteration P c m) as [m1 [c1 | e | |]] eqn:E;
      try (intros [= <- _]; exact (iteration_frame P c m _ _ E)).
    intros H. exact (frame_trans P _ _ _ (iteration_frame P c m _ _ E) (IH _ _ _ _ H)).
Qed.

(** The audit reads and never writes. *)
Lemma check_memory (p : ptr) m : (check p m).1 = m.
Proof.
  unfold check, bind, deref. destruct (objs m !! p) as [o |]; [| reflexivity].
  destruct (required_ o); [| reflexivity]. now destruct (found_ o) as [[|] |].
Qed.

Lemma for_each_check_memory l m : (for_each check l m).1 = m.
Proof.
  revert m. induction l as [| p l IH]; intros m; [reflexivity |].
  cbn [for_each]. unfold bind. pose proof (check_memory p m) as Hc.
  destruct (check p m) as [m1 [[] | e | |]]; cbn in Hc; subst m1; try reflexivity.
  apply IH.
Qed.

Lemma check_all_memory (P : Params) m : (check_all P m).1 = m.
Proof.
  unfold check_all, bind.
  pose proof (for_each_check_memory (map_to_list (map_ P)).*2 m) as H1.
  destruct (for_each check (map_to_list (map_ P)).*2 m) as [m1 [[] | e | |]];
    cbn in H1; subst m1; try reflexivity.
  apply for_each_check_memory.
Qed.

Lemma parse_frame fuel (P : Params) argv m m' (r : result unit) :
  parse fuel P argv m = Some (m', r) -> frame P m m'.
Proof.
  unfold parse.
  destruct (scan fuel P (mkCursor argv 0 false) m) as [[m1 [c1 | e | |]] |] eqn:E;
    try discriminate;
    try (intros [= <- _]; exact (scan_frame fuel P _ _ _ _ E)).
  intros H. pose proof (check_all_memory P m1) as Hc.
  destruct (check_all P m1) as [m2 r2]. cbn in Hc. injection H as <- _. subst m2.
  exact (scan_frame fuel P _ _ _ _ E).
Qed.

Lemma single_dash_long_unreachable (P : Params) (p : ptr) :
  (forall name, map_ P !! name = Some p -> single_dash_long name = true) ->
  p ∉ positional_ P ->
  ~ reachable P p.
Proof.
  intros Hn Hp [Hin | (name & Hm & Hk)]; [contradiction |].
  specialize (Hn name Hm).
  destruct name as [| a [| b [| c r]]]; cbn in Hn; try discriminate.
  apply andb_prop in Hn as [_ Hb]. apply negb_true_iff in Hb.
  destruct Hk as [Hk | Hk]; cbn in Hk; [discriminate |].
  apply andb_prop in Hk as [_ Hk]. congruence.
Qed.

(** What [add] enters in the table: the new object under the names given,
    the rest as before. *)
Lemma add_names_lookup (p : ptr) names :
  forall map option map' option',
    add_names p names map option = Ret (map', option') ->
    forall name q, map' !! name = Some q ->
      (q = p /\ name ∈ names) \/ map !! name = Some q.
Proof.
  induction names as [| n rest IH]; intros map option map' option'; cbn [add_names].
  - intros [= <- _] name q H. now right.
  - intros H name q Hq.
    assert (Hrest : (q = p /\ name ∈ rest) \/ <[n := p]> map !! name = Some q).
    { destruct (is_option n); [exact (IH _ _ _ _ H name q Hq) |].
      destruct (negb option); [exact (IH _ _ _ _ H name q Hq) | discriminate]. }
    destruct Hrest as [[-> Hin] | Hl].
    + left. split; [reflexivity | now apply list_elem_of_further].
    + rewrite lookup_insert in Hl. case_decide.
      * subst. injection Hl as <-. left. split; [reflexivity | apply list_elem_of_here].
      * now right.
Qed.

Lemma add_names_option_stays (p : ptr) names :
  forall map map' option',
    add_names p names map true = Ret (map', option') -> option' = true.
Proof.
  induction names as [| n rest IH]; intros map map' option'; cbn [add_names].
  - now intros [= _ <-].
  - destruct (is_option n); [apply IH | discriminate].
Qed.

Lemma single_dash_long_is_option name :
  single_dash_long name = true -> is_option name = true.
Proof.
  destruct name as [| a [| b [| c r]]]; cbn; try discriminate.
  intros H. apply andb_prop in H as [H _]. exact H.
Qed.

(** A parameter declared under aliases such as [-ab] only is out of
    reach of the scan once it is declared, *)
Lemma add_single_dash_long T target names required (P P' : Params) m m' :
  names <> [] ->
  (forall name, name ∈ names -> single_dash_long name = true) ->
  (forall name q, map_ P !! name = Some q -> (q < length (objs m))%nat) ->
  (forall q, q ∈ positional_ P -> (q < length (objs m))%nat) ->
  add T target names required P m = (m', Ret P') ->
  (forall name, map_ P' !! name = Some (length (objs m)) -> single_dash_long name = true)
  /\ length (objs m) ∉ positional_ P'.
Proof.
  intros Hne Hall Hmap Hpos. unfold add, bind, lift, Param_new.
  destruct (ParamBase_names_first names None) as [opt ->].
  destruct (add_names _ names (map_ P) false) as [[map option] | | |] eqn:E;
    try discriminate.
  intros [= _ <-]. cbn [map_ positional_].
  assert (Hopt : option = true).
  { destruct names as [| n rest]; [contradiction |]. cbn [add_names] in E.
    rewrite (single_dash_long_is_option n) in E by (apply Hall, list_elem_of_here).
    exact (add_names_option_stays _ _ _ _ _ E). }
  subst option. split.
  - intros name Hn.
    destruct (add_names_lookup _ _ _ _ _ _ E name _ Hn) as [[_ Hin] | Hold].
    + exact (Hall name Hin).
    + apply Hmap in Hold. lia.
  - intros Hin. apply Hpos in Hin. lia.
Qed.

(** and it stays so when further parameters are declared. *)
Lemma add_keeps_out_of_reach T target names required (P P' : Params) m m' (p : ptr) :
  (p < length (objs m))%nat ->
  (forall name, map_ P !! name = Some p -> single_dash_long name = true) ->
  p ∉ positional_ P ->
  add T target names required P m = (m', Ret P') ->
  (forall name, map_ P' !! name = Some p -> single_dash_long name = true)
  /\ p ∉ positional_ P'.
Proof.
  intros Hp Hmap Hpos. unfold add, bind, lift, Param_new.
  destruct (ParamBase_names_first names None) as [opt ->].
  destruct (add_names _ names (map_ P) false) as [[map option] | | |] eqn:E;
    try discriminate.
  intros [= _ <-]. cbn [map_ positional_]. split.
  - intros name Hn.
    destruct (add_names_lookup _ _ _ _ _ _ E name _ Hn) as [[Heq _] | Hold].
    + cbn [objs] in Heq. lia.
    + exact (Hmap name Hold).
  - destruct option; [exact Hpos |].
    intros Hin. apply elem_of_app in Hin as [Hin | Hin]; [contradiction |].
    apply list_elem_of_singleton in Hin. cbn [objs] in Hin. lia.
Qed.

(** A parameter whose aliases all have a single marker and more than one
    character behind it, and which is therefore not positional, is out of
    reach of the scan. Whatever the token, an iteration of the loop
    leaves the object as it was, and so is the variable it refers to, as
    long as no parameter the scan can reach refers to the same variable;
    the same holds from the call of [parse] to its end, whether it returns
    or not. *)
Lemma single_dash_long_alias_is_never_matched (P : Params) (p : ptr) :
  (forall name, map_ P !! name = Some p -> single_dash_long name = true) ->
  p ∉ positional_ P ->
  (forall (c : cursor) m m' (r : result cursor),
      iteration P c m = (m', r) ->
      objs m' !! p = objs m !! p
      /\ forall o,
          objs m !! p = Some o ->
          (forall q o', reachable P q -> objs m !! q = Some o' ->
                        target_ o' <> target_ o) ->
          vars m' !! target_ o = vars m !! target_ o)
  /\ (forall fuel argv m m' (r : result unit),
        parse fuel P argv m = Some (m', r) ->
        objs m' !! p = objs m !! p
        /\ forall o,
            objs m !! p = Some o ->
            (forall q o', reachable P q -> objs m !! q = Some o' ->
                          target_ o' <> target_ o) ->
            vars m' !! target_ o = vars m !! target_ o).
Proof.
  intros Hn Hp.
  pose proof (single_dash_long_unreachable P p Hn Hp) as Hu.
  split.
  - intros c m m' r H. apply iteration_frame in H as (_ & U & _ & V).
    split; [exact (U p Hu) |]. intros o _ Ha. exact (V _ Ha).
  - intros fuel argv m m' r H. apply parse_frame in H as (_ & U & _ & V).
    split; [exact (U p Hu) |]. intros o _ Ha. exact (V _ Ha).
Qed.

(** The [found_] of such a parameter is not [false], neither when it was
    declared nor at the end of a [parse]: from a memory in which no
    [found_] holds [false], [add] gives it no value and [parse] never
    assigns it. *)
Lemma single_dash_long_found_stays_unassigned (P : Params) (p : ptr) (o : Param)
    fuel argv m m' (r : result unit) :
  (forall name, map_ P !! name = Some p -> single_dash_long name = true) ->
  p ∉ positional_ P ->
  objs m !! p = Some o ->
  found_ o = None ->
  parse fuel P argv m = Some (m', r) ->
  exists o', objs m' !! p = Some o' /\ found_ o' = None.
Proof.
  intros Hn Hp Ho Hf H.
  pose proof (single_dash_long_unreachable P p Hn Hp) as Hu.
  apply parse_frame in H as (_ & U & _ & _).
  exists o. split; [| exact Hf]. rewrite (U p Hu). exact Ho.
Qed.

(** C10: the parameter declared as [-ab] is never matched, and its
    variable is never written, but its found flag does not stay false:
    it never was. The constructor gives [found_] no value, and since no
    token reaches the parameter, [parse] never assigns it either. With
    the flags [-a] and [-b] declared next to it, the tokens [-ab -a] set
    the two flags and leave the object of [-ab] with [found_] unassigned
    and its variable empty. When [-ab] is declared required, the audit
    at the end of [parse] reads the unassigned member: the behaviour is
    undefined where the claim has the flag [false]. *)
Theorem single_dash_long_alias_found_is_unassigned :
  (exists P m m',
      dash_ab empty_memory = (m, Ret P)
      /\ parse 2 P ["-ab"; "-a"] m = Some (m', Ret tt)
      /\ objs m !! 0%nat = Some (mkParam TString 0 ["-ab"] (Some true) false None)
      /\ objs m' !! 0%nat = Some (mkParam TString 0 ["-ab"] (Some true) false None)
      /\ vars m' = [VString ""; VBool true; VBool true])
  /\ run_main dash_ab_required 2 ["-ab"; "-a"]
     = Some (mkMemory [mkParam TString 0 ["-ab"] (Some true) true None;
                       mkParam TBool 1 ["-a"] (Some true) false (Some true);
                       mkParam TBool 2 ["-b"] (Some true) false (Some true)]
                      [VString ""; VBool true; VBool true],
             Undef).
Proof.
  split.
  - destruct (dash_ab empty_memory) as [m r] eqn:E.
    vm_compute in E. injection E as <- <-.
    eexists _, _, _. split; [reflexivity |].
    split; [vm_compute; reflexivity |].
    repeat split; reflexivity.
  - vm_compute. reflexivity.
Qed.

End Frame.

Section Audit.

Context {C : StdConv}.

Lemma for_each_check_returns l m :
  (forall p, p ∈ l ->
     exists o, objs m !! p = Some o /\ (required_ o = true -> found_ o = Some true)) ->
  for_each check l m = (m, Ret tt).
Proof.
  induction l as [| p l IH]; intros H; [reflexivity |].
  cbn [for_each]. unfold bind.
  destruct (H p) as (o & Ho & Hf); [apply list_elem_of_here |].
  assert (E : check p m = (m, Ret tt)).
  { unfold check, bind, deref. rewrite Ho. destruct (required_ o); [| reflexivity].
    now rewrite Hf. }
  rewrite E. apply IH. intros q Hq. apply H. now apply list_elem_of_further.
Qed.

Lemma for_each_check_throws l m m' e :
  for_each check l m = (m', Throw e) ->
  e = Exception "Required parameter not found."
  /\ exists p o, p ∈ l /\ objs m !! p = Some o
                 /\ required_ o = true /\ found_ o = Some false.
Proof.
  induction l as [| p l IH]; [discriminate |].
  cbn [for_each]. unfold bind.
  destruct (check p m) as [m1 [[] | e1 | |]] eqn:E; try discriminate.
  - pose proof (check_memory p m) as Hm. rewrite E in Hm. cbn in Hm. subst m1.
    intros H. destruct (IH H) as (-> & q & o & Hq & Ho).
    split; [reflexivity |]. exists q, o. split; [now apply list_elem_of_further | exact Ho].
  - intros [= <- <-]. revert E. unfold check, bind, deref.
    destruct (objs m !! p) as [o |] eqn:Ho; [| discriminate].
    destruct (required_ o) eqn:Hr; [| discriminate].
    destruct (found_ o) as [[|] |] eqn:Hf; try discriminate.
    intros [= <- <-]. split; [reflexivity |].
    exists p, o. repeat split; try assumption. apply list_elem_of_here.
Qed.

(** The audit passes when every required parameter it visits was
    marked found. *)
Lemma check_all_returns (P : Params) m :
  (forall p, audited P p ->
     exists o, objs m !! p = Some o /\ (required_ o = true -> found_ o = Some true)) ->
  check_all P m = (m, Ret tt).
Proof.
  intros H. unfold check_all, bind.
  rewrite for_each_check_returns by (intros p Hp; apply H; now left).
  apply for_each_check_returns. intros p Hp. apply H. now right.
Qed.

(** The audit throws only its own exception, and only at a required
    parameter whose [found_] holds [false]. *)
Lemma check_all_throws (P : Params) m m' e :
  check_all P m = (m', Throw e) ->
  e = Exception "Required parameter not found."
  /\ exists p o, audited P p /\ objs m !! p = Some o
                 /\ required_ o = true /\ found_ o = Some false.
Proof.
  unfold check_all, bind.
  destruct (for_each check (map_to_list (map_ P)).*2 m) as [m1 [[] | e1 | |]] eqn:E;
    try discriminate.
  - pose proof (for_each_check_memory (map_to_list (map_ P)).*2 m) as Hm.
    rewrite E in Hm. cbn in Hm. subst m1. intros H.
    apply for_each_check_throws in H as (-> & p & o & Hp & Ho).
    split; [reflexivity |]. exists p, o. split; [now right | exact Ho].
  - intros [= <- <-].
    apply for_each_check_throws in E as (-> & p & o & Hp & Ho).
    split; [reflexivity |]. exists p, o. split; [now left | exact Ho].
Qed.

Lemma for_each_check_reports l m :
  (forall p, p ∈ l ->
     exists o, objs m !! p = Some o /\ (required_ o = true -> found_ o <> None)) ->
  (exists p o, p ∈ l /\ objs m !! p = Some o
               /\ required_ o = true /\ found_ o = Some false) ->
  for_each check l m = (m, Throw (Exception "Required parameter not found.")).
Proof.
  induction l as [| p l IH]; intros Hd (q & oq & Hq & Hoq & Hr & Hf).
  { now apply not_elem_of_nil in Hq. }
  cbn [for_each]. unfold bind.
  destruct (Hd p) as (o & Ho & Hdet); [apply list_elem_of_here |].
  assert (Hrest : q ∈ l -> for_each check l m
                           = (m, Throw (Exception "Required parameter not found."))).
  { intros Hin. apply IH.
    - intros p' Hp'. apply Hd. now apply list_elem_of_further.
    - exists q, oq. auto. }
  unfold check at 1. unfold bind, deref. rewrite Ho.
  destruct (required_ o) eqn:Hro.
  - destruct (found_ o) as [[|] |] eqn:Hfo.
    + apply Hrest. apply elem_of_cons in Hq as [-> | Hq]; [congruence | exact Hq].
    + reflexivity.
    + now destruct (Hdet eq_refl).
  - apply Hrest. apply elem_of_cons in Hq as [-> | Hq]; [congruence | exact Hq].
Qed.

Lemma for_each_check_determinate l m :
  (forall p, p ∈ l ->
     exists o, objs m !! p = Some o /\ (required_ o = true -> found_ o <> None)) ->
  for_each check l m = (m, Ret tt)
  \/ for_each check l m = (m, Throw (Exception "Required parameter not found.")).
Proof.
  induction l as [| p l IH]; intros Hd; [now left |].
  cbn [for_each]. unfold bind.
  destruct (Hd p) as (o & Ho & Hdet); [apply list_elem_of_here |].
  unfold check at 1 3. unfold bind, deref. rewrite Ho.
  assert (Hl : forall p', p' ∈ l ->
             exists o', objs m !! p' = Some o'
                        /\ (required_ o' = true -> found_ o' <> None)).
  { intros p' Hp'. apply Hd. now apply list_elem_of_further. }
  destruct (required_ o); [| exact (IH Hl)].
  destruct (found_ o) as [[|] |]; [exact (IH Hl) | now right | now destruct (Hdet eq_refl)].
Qed.

(** Had every [found_] a value, the audit would throw exactly when a
    required parameter it visits holds [false]. *)
Lemma check_all_reports_missing (P : Params) m :
  (forall p, audited P p ->
     exists o, objs m !! p = Some o /\ (required_ o = true -> found_ o <> None)) ->
  (exists p o, audited P p /\ objs m !! p = Some o
               /\ required_ o = true /\ found_ o = Some false) ->
  check_all P m = (m, Throw (Exception "Required parameter not found.")).
Proof.
  intros Hd (q & oq & Hq & Hw). unfold check_all, bind.
  assert (Hd1 : forall p, p ∈ (map_to_list (map_ P)).*2 ->
            exists o, objs m !! p = Some o
                      /\ (required_ o = true -> found_ o <> None)).
  { intros p Hp. apply Hd. now left. }
  assert (Hd2 : forall p, p ∈ positional_ P ->
            exists o, objs m !! p = Some o
                      /\ (required_ o = true -> found_ o <> None)).
  { intros p Hp. apply Hd. now right. }
  destruct Hq as [Hq | Hq].
  - rewrite (for_each_check_reports _ m Hd1); [reflexivity | exists q, oq; auto].
  - destruct (for_each_check_determinate _ m Hd1) as [E | E]; rewrite E;
      [| reflexivity].
    apply for_each_check_reports; [exact Hd2 | exists q, oq; auto].
Qed.

(** Nothing in the header ever stores [false] in [found_]. *)
Lemma add_never_false T target names required (P P' : Params) m m' :
  add T target names required P m = (m', Ret P') ->
  never_false m -> never_false m'.
Proof.
  unfold add, bind, lift, Param_new.
  destruct (ParamBase_names_first names None) as [opt ->].
  destruct (add_names _ names (map_ P) false) as [[map option] | | |];
    try discriminate.
  intros [= <- _] Hn p o. cbn [objs].
  intros Ho. apply lookup_app_Some in Ho as [Ho | [_ Ho]].
  - exact (Hn p o Ho).
  - apply list_lookup_singleton_Some in Ho as [_ <-]. discriminate.
Qed.

Lemma frame_never_false (P : Params) m m' :
  frame P m m' -> never_false m -> never_false m'.
Proof.
  intros (_ & _ & T & _) Hn p o' Ho'.
  destruct (T p o' Ho') as (o & Ho & [-> | ->]).
  - exact (Hn p o Ho).
  - discriminate.
Qed.

(** So, from a memory in which no [found_] holds [false], the audit
    which follows a completed scan never throws: a required parameter
    which was not matched makes it read an unassigned member instead. *)
Lemma audit_never_reports_missing fuel (P : Params) (c c1 : cursor) m m1 :
  never_false m ->
  scan fuel P c m = Some (m1, Ret c1) ->
  forall m2 e, check_all P m1 <> (m2, Throw e).
Proof.
  intros Hn H m2 e Hc.
  apply scan_frame in H.
  apply check_all_throws in Hc as (_ & p & o & _ & Ho & _ & Hf).
  exact (frame_never_false P m m1 H Hn p o Ho Hf).
Qed.

End Audit.

(** * The properties on concrete schemas and tokens *)

Section Declared.

Context {C : StdConv}.

Lemma flag_and_option_declared :
  flag_and_option true TString empty_memory = (cluster_memory, Ret cluster_registry).
Proof. vm_compute. reflexivity. Qed.

Lemma flag_and_file_declared :
  flag_and_file empty_memory = (file_memory, Ret file_registry).
Proof. vm_compute. reflexivity. Qed.

Lemma dash_ab_declared :
  dash_ab empty_memory = (dash_ab_memory, Ret dash_ab_registry).
Proof. vm_compute. reflexivity. Qed.

(** The whole run on [-ab 5]: the text [b] is stored for [-b], and [5]
    is scanned as a positional token, which the schema does not have. *)
Example cluster_value_then_positional :
  run_main (flag_and_option true TString) 2 ["-ab"; "5"]
    = Some (mkMemory [mkParam TBool 0 ["-a"] (Some true) false (Some true);
                      mkParam TString 1 ["-b"] (Some true) false (Some true)]
                     [VBool true; VString "b"],
            Throw (Exception "Unknown positional parameter.")).
Proof. vm_compute. reflexivity. Qed.

(** A required parameter which lost its only alias to a later
    declaration is not visited by the audit. *)
Lemma declared_twice_not_audited :
  run_main declared_twice 0 []
    = Some (mkMemory [mkParam TString 0 ["-a"] (Some true) true None;
                      mkParam TBool 1 ["-a"] (Some true) false None]
                     [VString ""; VBool false],
            Ret tt).
Proof. vm_compute. reflexivity. Qed.

Lemma dash_ab_aliases name :
  map_ dash_ab_registry !! name = Some 0%nat -> single_dash_long name = true.
Proof.
  unfold dash_ab_registry. cbn [map_].
  rewrite !lookup_insert. repeat case_decide; subst; try discriminate.
  reflexivity.
Qed.

Lemma dash_ab_not_positional : 0%nat ∉ positional_ dash_ab_registry.
Proof. cbn. apply not_elem_of_nil. Qed.

Lemma dash_ab_no_sharing q o :
  reachable dash_ab_registry q ->
  objs dash_ab_memory !! q = Some o ->
  target_ o <> 0%nat.
Proof.
  intros Hr Ho. destruct q as [| [| [| q]]]; cbn in Ho; try discriminate.
  - exfalso. revert Hr.
    apply single_dash_long_unreachable;
      [exact dash_ab_aliases | exact dash_ab_not_positional].
  - injection Ho as <-. discriminate.
  - injection Ho as <-. discriminate.
Qed.

End Declared.

(** The command line of the usage text of the two example programs, in
    every environment in which [std::stoul] reads [10] as 10 and
    [std::stof] reads [2.5] as some [x]. The run of [overview.cpp] stops
    at the destination: the parameter was declared without a name, its
    [option_] was never assigned, and [value] reads it. *)
Example overview_usage_line (C : StdConv) (interval x : float) :
  stoul "10" = inr 10 ->
  stof "2.5" = inr x ->
  exists P m,
    overview_cpp true (overview_variables interval) = (m, Ret P)
    /\ parse 6 P ["-a"; "-c"; "10"; "-i"; "2.5"; "192.168.0.1"] m
       = Some (mkMemory
                 [mkParam TBool 0 ["-a"] (Some true) false (Some true);
                  mkParam TULong 1 ["-c"; "--count"] (Some true) false (Some true);
                  mkParam TFloat 2 ["-i"; "--interval"] (Some true) false (Some true);
                  mkParam TString 3 [] None true None]
                 [VBool true; VULong 10; VFloat x; VString ""],
               Undef).
Proof.
  destruct C as [fl db fz dz si sl sul sf sd]. cbn [stoul stof float] in *.
  intros Hu Hf. eexists _, _. split; [vm_compute; reflexivity |].
  unfold parse.
  erewrite scan_S; [| discriminate | vm_compute; reflexivity].
  erewrite scan_S; [| discriminate | vm_compute; rewrite Hu; vm_compute; reflexivity].
  erewrite scan_S; [| discriminate | vm_compute; rewrite Hf; vm_compute; reflexivity].
  vm_compute. reflexivity.
Qed.

(** With the schema of [values.cpp] the same line is parsed in full. *)
Example values_usage_line (C : StdConv) (x : float) :
  stoul "10" = inr 10 ->
  stof "2.5" = inr x ->
  run_main (values_cpp true) 6 ["-a"; "-c"; "10"; "-i"; "2.5"; "192.168.0.1"]
  = Some (mkMemory
            [mkParam TBool 0 ["-a"] (Some true) false (Some true);
             mkParam TULong 1 ["-c"; "--count"] (Some true) false (Some true);
             mkParam TFloat 2 ["-i"; "--interval"] (Some true) false (Some true);
             mkParam TString 3 ["destination"] (Some false) true (Some true)]
            [VBool true; VULong 10; VFloat x; VString "192.168.0.1"],
          Ret tt).
Proof.
  destruct C as [fl db fz dz si sl sul sf sd]. cbn [stoul stof float] in *.
  intros Hu Hf. unfold run_main.
  match goal with
  | |- context [values_cpp true empty_memory] =>
      destruct (values_cpp true empty_memory) as [m r] eqn:E
  end.
  vm_compute in E. injection E as <- <-. unfold parse.
  erewrite scan_S; [| discriminate | vm_compute; reflexivity].
  erewrite scan_S; [| discriminate | vm_compute; rewrite Hu; vm_compute; reflexivity].
  erewrite scan_S; [| discriminate | vm_compute; rewrite Hf; vm_compute; reflexivity].
  erewrite scan_S; [| discriminate | vm_compute; reflexivity].
  vm_compute. reflexivity.
Qed.

Section Concrete.

#[local] Existing Instance Reference.conv.

Example values_count_equals :
  run_main (values_cpp true) 2 ["--count=5"; "dest"]
  = Some (mkMemory
            [mkParam TBool 0 ["-a"] (Some true) false None;
             mkParam TULong 1 ["-c"; "--count"] (Some true) false (Some true);
             mkParam TFloat 2 ["-i"; "--interval"] (Some true) false None;
             mkParam TString 3 ["destination"] (Some false) true (Some true)]
            [VBool false; VULong 5; VFloat (0, 0); VString "dest"],
          Ret tt).
Proof. reflexivity. Qed.

(** The same count in a token of its own: [std::stoul] is handed the
    text [count]. *)
Example values_count_separate :
  (snd <$> run_main (values_cpp true) 3 ["--count"; "5"; "dest"])
  = Some (Throw invalid_argument).
Proof. reflexivity. Qed.

(** The outcome the specification gives for [-ab 5] is not reached:
    after the iteration on [-ab] the token [5] is still to be scanned and
    the text stored for [-b] is not [5]. *)
Lemma cluster_value_is_not_next_token :
  ~ (exists m',
        iteration cluster_registry (mkCursor ["-ab"; "5"] 0 false) cluster_memory
          = (m', Ret (mkCursor [] 0 false))
        /\ vars m' !! 0%nat = Some (VBool true)
        /\ vars m' !! 1%nat = Some (VString "5")).
Proof.
  intros (m' & H & _).
  assert (E : iteration cluster_registry (mkCursor ["-ab"; "5"] 0 false) cluster_memory
              = (mkMemory [mkParam TBool 0 ["-a"] (Some true) false (Some true);
                           mkParam TString 1 ["-b"] (Some true) false (Some true)]
                          [VBool true; VString "b"],
                 Ret (mkCursor ["5"] 0 false))) by reflexivity.
  rewrite E in H. discriminate H.
Qed.

Lemma cluster_option_witness :
  iteration cluster_registry (mkCursor ["-ab"; "5"] 0 false) cluster_memory
    = (mkMemory [mkParam TBool 0 ["-a"] (Some true) false (Some true);
                 mkParam TString 1 ["-b"] (Some true) false (Some true)]
                [VBool true; VString "b"],
       Ret (mkCursor ["5"] 0 false)).
Proof.
  exact (cluster_option_value_is_cluster_text cluster_registry cluster_memory 0 1
           (mkParam TBool 0 ["-a"] (Some true) false None)
           (mkParam TString 1 ["-b"] (Some true) false None)
           ["5"] 0 eq_refl eq_refl eq_refl eq_refl eq_refl
           ltac:(discriminate) eq_refl).
Defined.

(** With an [int] behind [-b] the conversion of [b] throws. *)
Example cluster_int_throws :
  (P <- flag_and_option true TInt ;;
   iteration P (mkCursor ["-ab"; "5"] 0 false)) empty_memory
  = (mkMemory [mkParam TBool 0 ["-a"] (Some true) false (Some true);
               mkParam TInt 1 ["-b"] (Some true) false None]
              [VBool true; VInt 0],
     Throw invalid_argument).
Proof. reflexivity. Qed.

(** After the terminator, with a positional parameter declared under a
    name: the flag is left alone and [file] receives [-a]. *)
Lemma terminator_file_receives_alias :
  iteration file_registry (mkCursor ["-a"] 0 true) file_memory
    = (mkMemory [mkParam TBool 0 ["-a"] (Some true) false None;
                 mkParam TString 1 ["file"] (Some false) false (Some true)]
                [VBool false; VString "-a"],
       Ret (mkCursor [] 1 true)).
Proof.
  exact (proj2 (proj2 (proj2 (terminator_makes_the_rest_positional file_registry)))
           (mkCursor ["-a"] 0 true) file_memory "-a" [] 1%nat
           (mkParam TString 1 ["file"] (Some false) false None)
           eq_refl eq_refl eq_refl eq_refl eq_refl eq_refl).
Defined.

Example terminator_then_alias :
  parse 2 file_registry ["--"; "-a"] file_memory
  = Some (mkMemory [mkParam TBool 0 ["-a"] (Some true) false None;
                    mkParam TString 1 ["file"] (Some false) false (Some true)]
                   [VBool false; VString "-a"],
          Ret tt).
Proof. reflexivity. Qed.

Example second_terminator_is_positional :
  parse 2 file_registry ["--"; "--"] file_memory
  = Some (mkMemory [mkParam TBool 0 ["-a"] (Some true) false None;
                    mkParam TString 1 ["file"] (Some false) false (Some true)]
                   [VBool false; VString "--"],
          Ret tt).
Proof. reflexivity. Qed.

(** C9, the claim at a declaration like that of [destination] in
    [overview.cpp]: nothing is thrown. *)
Lemma empty_names_counterexample :
  ~ (exists m' e,
        add TString 3 [] true (Params_new true) (overview_variables (1, 0))
          = (m', Throw e)).
Proof. intros (m' & e & H). discriminate H. Qed.

Example overview_declared :
  exists m P,
    overview_cpp true (overview_variables (1, 0)) = (m, Ret P)
    /\ positional_ P = [3%nat]
    /\ objs m !! 3%nat = Some (mkParam TString 3 [] None true None)
    /\ size (map_ P) = 5%nat.
Proof. eexists _, _. repeat split; reflexivity. Qed.

(** The option [-ab] and the tokens [-ab -a]: the token sets the flags
    [-a] and [-b]; the object and the variable of [-ab] are as they
    were. *)
Lemma dash_ab_untouched :
  parse 2 dash_ab_registry ["-ab"; "-a"] dash_ab_memory
    = Some (dash_ab_parsed, Ret tt)
  /\ objs dash_ab_parsed !! 0%nat = objs dash_ab_memory !! 0%nat
  /\ vars dash_ab_parsed !! 0%nat = vars dash_ab_memory !! 0%nat.
Proof.
  split; [reflexivity |].
  destruct (proj2 (single_dash_long_alias_is_never_matched dash_ab_registry 0
                     dash_ab_aliases dash_ab_not_positional)
              2%nat ["-ab"; "-a"] dash_ab_memory dash_ab_parsed (Ret tt) eq_refl)
    as [Ho Hv].
  split; [exact Ho |].
  exact (Hv (mkParam TString 0 ["-ab"] (Some true) false None) eq_refl
            (fun q o => dash_ab_no_sharing q o)).
Defined.

End Concrete.

(** * Further properties of the registry and of the scan *)

Section Registry.

Context {C : StdConv}.

(** [ParamBase]'s loop leaves in [option_] the class of the last name. *)
Lemma ParamBase_names_last names :
  forall o,
    ParamBase_names true names o
    = Ret (match last names with
           | Some n => Some (is_option n)
           | None => o
           end).
Proof.
  induction names as [| n rest IH]; intros o; [reflexivity |].
  cbn [ParamBase_names]. rewrite IH. destruct rest as [| n' rest']; [reflexivity |].
  change (last (n :: n' :: rest')) with (last (n' :: rest')).
  destruct (last (n' :: rest')) eqn:E; [reflexivity |].
  apply last_None in E. discriminate.
Qed.

Lemma add_names_table (p : ptr) names :
  forall map option map' option',
    add_names p names map option = Ret (map', option') ->
    forall name,
      map' !! name = if decide (name ∈ names) then Some p else map !! name.
Proof.
  induction names as [| n rest IH]; intros map option map' option'; cbn [add_names].
  - intros [= <- _] name. rewrite decide_False by apply not_elem_of_nil. reflexivity.
  - intros H name.
    assert (Hr : map' !! name
                 = if decide (name ∈ rest) then Some p else <[n := p]> map !! name).
    { destruct (is_option n); [exact (IH _ _ _ _ H name) |].
      destruct (negb option); [exact (IH _ _ _ _ H name) | discriminate]. }
    rewrite Hr. destruct (decide (name ∈ rest)) as [Hin | Hin].
    + rewrite decide_True by (now apply list_elem_of_further). reflexivity.
    + destruct (decide (name = n)) as [-> | Hne].
      * rewrite decide_True by apply list_elem_of_here. apply lookup_insert_eq.
      * rewrite decide_False.
        -- now apply lookup_insert_ne.
        -- intros Hc. apply elem_of_cons in Hc as [? | ?]; contradiction.
Qed.

(** What a call of [add] which returns has done. *)
Lemma add_returns T target names required (P P' : Params) m m' :
  add T target names required P m = (m', Ret P') ->
  exists opt option,
    ParamBase_names true names None = Ret opt
    /\ add_names (length (objs m)) names (map_ P) false = Ret (map_ P', option)
    /\ m' = mkMemory (objs m ++ [mkParam T target names opt required None]) (vars m)
    /\ strict_ P' = strict_ P
    /\ values_ P' = values_ P
    /\ positional_ P'
       = (if option then positional_ P else positional_ P ++ [length (objs m)])%list.
Proof.
  unfold add, bind, lift, Param_new.
  destruct (ParamBase_names_first names None) as [opt Hopt]. rewrite Hopt.
  destruct (add_names _ names (map_ P) false) as [[map option] | | |] eqn:E;
    try discriminate.
  intros [= <- <-]. exists opt, option. repeat split; reflexivity.
Qed.

(** X1: when [add] returns, every name of the list designates the new
    parameter in the table, whatever it designated before (the last
    declaration of an alias wins), and every other name designates what it
    did; the new object is appended to the objects and no variable is
    touched. *)
Theorem add_enters_every_name T target names required (P P' : Params) m m' :
  add T target names required P m = (m', Ret P') ->
  (forall name, name ∈ names -> map_ P' !! name = Some (length (objs m)))
  /\ (forall name, name ∉ names -> map_ P' !! name = map_ P !! name)
  /\ (exists o, objs m' = (objs m ++ [o])%list
                /\ T_ o = T /\ target_ o = target /\ names_ o = names
                /\ required_ o = required)
  /\ vars m' = vars m.
Proof.
  intros H. apply add_returns in H as (opt & option & _ & Hn & -> & _).
  pose proof (add_names_table _ _ _ _ _ _ Hn) as Ht.
  repeat split.
  - intros name Hin. rewrite Ht. now rewrite decide_True.
  - intros name Hin. rewrite Ht. now rewrite decide_False.
  - eexists. repeat split; reflexivity.
Qed.

Lemma bare_after_option_cons n rest :
  bare_after_option rest -> bare_after_option (n :: rest).
Proof.
  intros (l1 & a & l2 & b & l3 & -> & Ha & Hb).
  exists (n :: l1), a, l2, b, l3. auto.
Qed.

Lemma bare_after_option_head n rest b :
  is_option n = true -> b ∈ rest -> is_option b = false ->
  bare_after_option (n :: rest).
Proof.
  intros Hn Hin Hb. apply list_elem_of_split in Hin as (l2 & l3 & ->).
  exists [], n, l2, b, l3. auto.
Qed.

Lemma bare_after_option_inv n rest :
  bare_after_option (n :: rest) ->
  (is_option n = true /\ exists b, b ∈ rest /\ is_option b = false)
  \/ bare_after_option rest.
Proof.
  intros (l1 & a & l2 & b & l3 & E & Ha & Hb).
  destruct l1 as [| x l1]; cbn in E; injection E as -> ->.
  - left. split; [exact Ha |]. exists b. split; [| exact Hb].
    apply elem_of_app. right. apply list_elem_of_here.
  - right. exists l1, a, l2, b, l3. auto.
Qed.

(** [add]'s loop stops at its assertion exactly when a bare name is met
    after an option name; it ends in no other way than by returning or by
    the assertion. *)
Lemma add_names_outcome (p : ptr) names :
  forall map option,
    (add_names p names map option = Aborted
     /\ ((option = true /\ exists b, b ∈ names /\ is_option b = false)
         \/ bare_after_option names))
    \/ ((exists r, add_names p names map option = Ret r)
        /\ ~ ((option = true /\ exists b, b ∈ names /\ is_option b = false)
              \/ bare_after_option names)).
Proof.
  induction names as [| n rest IH]; intros map option; cbn [add_names].
  - right. split; [eauto |].
    intros [(_ & b & Hb & _) | (l1 & a & l2 & b & l3 & E & _)].
    + now apply not_elem_of_nil in Hb.
    + now destruct l1.
  - destruct (is_option n) eqn:Hn.
    + destruct (IH (<[n := p]> map) true) as [[E Q] | [E Q]].
      * left. split; [exact E |]. right.
        destruct Q as [(_ & b & Hb & Hbo) | Q].
        -- exact (bare_after_option_head n rest b Hn Hb Hbo).
        -- now apply bare_after_option_cons.
      * right. split; [exact E |]. intros [(_ & b & Hb & Hbo) | Hq]; apply Q.
        -- left. split; [reflexivity |]. exists b. split; [| exact Hbo].
           apply elem_of_cons in Hb as [-> | Hb]; [congruence | exact Hb].
        -- apply bare_after_option_inv in Hq as [(_ & Hq) | Hq]; [left | right]; auto.
    + destruct option; cbn [negb].
      * left. split; [reflexivity |]. left. split; [reflexivity |].
        exists n. split; [apply list_elem_of_here | exact Hn].
      * destruct (IH (<[n := p]> map) false) as [[E Q] | [E Q]].
        -- left. split; [exact E |]. right.
           destruct Q as [(Hc & _) | Q]; [discriminate |].
           now apply bare_after_option_cons.
        -- right. split; [exact E |]. intros [(Hc & _) | Hq]; [discriminate |].
           apply Q. right.
           apply bare_after_option_inv in Hq as [(Hc & _) | Hq]; [congruence | exact Hq].
Qed.

(** X2: [add] never throws. It stops at its assertion exactly when the
    list of names has a bare name behind an option name, and returns in
    every other case: the empty list, bare names only, option names only,
    and also bare names followed by option names. *)
Theorem add_aborts_iff_bare_after_option T target names required (P : Params) m :
  (bare_after_option names ->
     exists m', add T target names required P m = (m', Aborted))
  /\ (~ bare_after_option names ->
        exists m' P', add T target names required P m = (m', Ret P')).
Proof.
  unfold add, bind, lift, Param_new.
  destruct (ParamBase_names_first names None) as [opt ->].
  destruct (add_names_outcome (length (objs m)) names (map_ P) false)
    as [[E Q] | [[[map option] E] Q]]; rewrite E; split.
  - eauto.
  - intros Hn. destruct Q as [(Hc & _) | Q]; [discriminate | contradiction].
  - intros Hb. destruct Q. now right.
  - eauto.
Qed.

Lemma add_names_after_option (p : ptr) names :
  forall map map' option',
    add_names p names map true = Ret (map', option') ->
    forall n, n ∈ names -> is_option n = true.
Proof.
  induction names as [| x rest IH]; intros map map' option'; cbn [add_names].
  - intros _ n Hn. now apply not_elem_of_nil in Hn.
  - destruct (is_option x) eqn:Hx; [| discriminate].
    intros H n Hn. apply elem_of_cons in Hn as [-> | Hn]; [exact Hx |].
    exact (IH _ _ _ H n Hn).
Qed.

(** The local [option] of [add] at the end of its loop, and the class of
    the last name when an option name was met. *)
Lemma add_names_class (p : ptr) names :
  forall map map' option',
    add_names p names map false = Ret (map', option') ->
    ((forall n, n ∈ names -> is_option n = false) -> option' = false)
    /\ ((exists n, n ∈ names /\ is_option n = true) ->
          option' = true
          /\ exists l, last names = Some l /\ is_option l = true).
Proof.
  induction names as [| x rest IH]; intros map map' option'; cbn [add_names].
  - intros [= _ <-]. split; [reflexivity |].
    intros (n & Hn & _). now apply not_elem_of_nil in Hn.
  - destruct (is_option x) eqn:Hx.
    + intros H. split.
      * intros Hall. rewrite Hall in Hx by apply list_elem_of_here. discriminate.
      * intros _. split; [exact (add_names_option_stays _ _ _ _ _ H) |].
        destruct (last (x :: rest)) as [l |] eqn:El.
        2:{ apply last_None in El. discriminate. }
        exists l. split; [reflexivity |].
        apply last_Some_elem_of in El.
        apply elem_of_cons in El as [-> | El]; [exact Hx |].
        exact (add_names_after_option _ _ _ _ _ H l El).
    + cbn [negb]. intros H. destruct (IH _ _ _ H) as [I1 I2]. split.
      * intros Hall. apply I1. intros n Hn. apply Hall. now apply list_elem_of_further.
      * intros (n & Hn & Ho).
        apply elem_of_cons in Hn as [-> | Hn]; [congruence |].
        destruct I2 as (-> & l & El & Hl); [eauto |].
        split; [reflexivity |]. exists l. split; [| exact Hl].
        rewrite last_cons, El. reflexivity.
Qed.

(** X3: a parameter declared by a call of [add] which returns is
    positional exactly when none of its names is an option. With bare names
    only (or none) it is appended to the positional parameters, and its
    [option_] is false for a non-empty list and unassigned for the empty
    one; as soon as one name is an option it is not positional and its
    [option_] is true, also when bare names come first. *)
Theorem add_positional_iff_no_option_name T target names required
    (P P' : Params) m m' :
  add T target names required P m = (m', Ret P') ->
  exists o,
    objs m' !! length (objs m) = Some o
    /\ ((forall n, n ∈ names -> is_option n = false) ->
          positional_ P' = (positional_ P ++ [length (objs m)])%list
          /\ option_ o = match names with [] => None | _ :: _ => Some false end)
    /\ ((exists n, n ∈ names /\ is_option n = true) ->
          positional_ P' = positional_ P /\ option_ o = Some true).
Proof.
  intros H. apply add_returns in H as (opt & option & Hopt & Hn & -> & _ & _ & Hp).
  rewrite ParamBase_names_last in Hopt. injection Hopt as <-.
  destruct (add_names_class _ _ _ _ _ Hn) as [I1 I2].
  eexists. split; [cbn [objs]; apply list_lookup_middle; reflexivity |].
  cbn [option_]. split.
  - intros Hall. rewrite (I1 Hall) in Hp. split; [exact Hp |].
    destruct names as [| x rest]; [reflexivity |].
    destruct (last (x :: rest)) as [l |] eqn:El.
    + apply last_Some_elem_of in El. now rewrite (Hall l El).
    + apply last_None in El. discriminate.
  - intros Hex. destruct (I2 Hex) as (Ho & l & El & Hl).
    rewrite Ho in Hp. split; [exact Hp |]. now rewrite El, Hl.
Qed.

(** X4: a parameter declared with a target of its own can be read back
    under each of its names: [get<T>] returns [T()] before any parse,
    [get] with another type throws [Conversion not supported.] *)
Theorem get_after_add_value T names required (P P' : Params) m m' name :
  add_value T names required P m = (m', Ret P') ->
  name ∈ names ->
  get T name P' m' = (m', Ret (value_init T))
  /\ forall T', T' <> T ->
       get T' name P' m' = (m', Throw (Exception "Conversion not supported.")).
Proof.
  unfold add_value. intros H Hin.
  apply add_returns in H as (opt & option & _ & Hn & -> & _).
  cbn [objs vars map_] in Hn |- *.
  pose proof (add_names_table _ _ _ _ _ _ Hn name) as Ht.
  rewrite decide_True in Ht by exact Hin.
  unfold get. rewrite Ht. unfold bind, deref. cbn [objs vars].
  rewrite list_lookup_middle by reflexivity. cbn [T_ target_]. split.
  - rewrite bool_decide_eq_true_2 by reflexivity. cbn [vars].
    rewrite list_lookup_middle by reflexivity. reflexivity.
  - intros T' HT. rewrite bool_decide_eq_false_2 by congruence. reflexivity.
Qed.

(** A name which was never declared is not found. *)
Lemma get_unknown_name T (P : Params) m name :
  map_ P !! name = None ->
  get T name P m = (m, Throw (Exception "Parameter not found.")).
Proof. intros H. unfold get. now rewrite H. Qed.

End Registry.

Section Progress.

Context {C : StdConv}.

(** The increments [value] reports: 1, or 2 when a second token is there. *)
Lemma value_inc (o : Param) start text inc :
  value o start = Ret (text, inc) ->
  (inc = 1 /\ start <> []) \/ (inc = 2 /\ (2 <= length start)%nat).
Proof.
  unfold value. destruct start as [| opt rest]; [discriminate |].
  destruct (option_ o) as [[|] |]; try discriminate.
  - destruct (Str.find "=" opt).
    + intros [= _ <-]. left. split; [reflexivity | discriminate].
    + destruct (2 <? Str.size opt)%nat.
      * intros [= _ <-]. left. split; [reflexivity | discriminate].
      * destruct rest as [| v rest']; [discriminate |].
        intros [= _ <-]. right. split; [reflexivity | cbn; lia].
  - intros [= _ <-]. left. split; [reflexivity | discriminate].
Qed.

(** What [Param<T>::parse] returns: 0 for a flag only, else the increment
    of [value], which stays within the tokens. *)
Lemma Param_parse_inc (p : ptr) start m m' inc :
  Param_parse p start m = (m', Ret inc) ->
  (inc = 0 /\ exists o, objs m !! p = Some o /\ T_ o = TBool)
  \/ (inc = 1 /\ start <> [])
  \/ (inc = 2 /\ (2 <= length start)%nat).
Proof.
  destruct (objs m !! p) as [o |] eqn:Ho.
  2:{ unfold Param_parse, bind, deref. rewrite Ho. discriminate. }
  destruct start as [| tok rest].
  { unfold Param_parse, bind, deref. rewrite Ho. cbn. discriminate. }
  destruct (decide (T_ o = TBool)) as [HT | HT].
  - rewrite (Param_parse_bool p o _ m Ho HT) by discriminate.
    intros [= _ <-]. left. eauto.
  - rewrite (Param_parse_value p o _ m Ho HT) by discriminate.
    destruct (value o (tok :: rest)) as [[text i] | e | |] eqn:Ev; try discriminate.
    destruct (conversion (T_ o) text); [discriminate |].
    intros [= _ <-]. right. exact (value_inc o _ text i Ev).
Qed.

Lemma short_options_inc (P : Params) start chars :
  forall inc m m' n,
    short_options P start chars inc m = (m', Ret (Some n)) ->
    (inc = Some n) \/ n = 0
    \/ (n = 1 /\ start <> []) \/ (n = 2 /\ (2 <= length start)%nat).
Proof.
  induction chars as [| ch rest IH]; intros inc m m' n; cbn [short_options].
  - intros [= _ <-]. now left.
  - destruct (map_ P !! String "-" (String ch EmptyString)) as [q |].
    + unfold bind.
      destruct (Param_parse q start m) as [m1 [i | e | |]] eqn:E; try discriminate.
      apply Param_parse_inc in E.
      destruct (0 <? i) eqn:Hi.
      * intros [= _ <-]. right.
        destruct E as [(-> & _) | [E | E]]; [discriminate | right; now left | right; now right].
      * intros H. apply IH in H as [[= <-] | H]; [| now right].
        right. destruct E as [(-> & _) | [(-> & _) | (-> & _)]];
          [now left | discriminate | discriminate].
    + destruct (strict_ P); [discriminate |]. apply IH.
Qed.

(** The ways an iteration which returns moves the cursor. Either the
    cursor is handed back as it was, in lenient mode or for a flag reached
    through a long token; or tokens are consumed, at least one and no more
    than there are; or the next positional parameter is used, with at most
    two tokens consumed. *)
Lemma iteration_cursor_cases (P : Params) (c c' : cursor) m m' :
  start c <> [] ->
  iteration P c m = (m', Ret c') ->
  (c' = c
   /\ (strict_ P = false
       \/ exists name p o,
            map_ P !! name = Some p /\ double_dash name = true
            /\ objs m !! p = Some o /\ T_ o = TBool))
  \/ (exists k, (1 <= k <= length (start c))%nat
                /\ start c' = drop k (start c)
                /\ next c' = next c
                /\ (positional_onward c = true -> positional_onward c' = true))
  \/ (exists k, (k <= length (start c))%nat
                /\ start c' = drop k (start c)
                /\ next c' = S (next c)
                /\ (next c < length (positional_ P))%nat
                /\ positional_onward c' = positional_onward c).
Proof.
  intros Hne. unfold iteration. destruct (start c) as [| arg rest] eqn:Hs;
    [contradiction |].
  destruct (is_positional_token c arg) eqn:Hpos.
  - unfold positional_rule.
    destruct (positional_ P !! next c) as [q |] eqn:Hq.
    + unfold bind. rewrite ?Hs.
      destruct (Param_parse q (arg :: rest) m) as [m1 [i | e | |]] eqn:E;
        try discriminate.
      unfold ret. intros [= _ <-]. right. right.
      exists (Z.to_nat i). cbn [start next positional_onward].
      apply lookup_lt_Some in Hq.
      apply Param_parse_inc in E.
      repeat split; try assumption; try reflexivity.
      destruct E as [(-> & _) | [(-> & _) | (-> & E)]]; cbn in *; lia.
    + destruct (strict_ P) eqn:Hst; [discriminate |].
      unfold ret. intros [= _ <-]. left. split; [reflexivity | now left].
  - destruct (bool_decide (arg = "--")).
    { unfold ret. intros [= _ <-]. right. left. exists 1%nat.
      cbn [start next positional_onward]. rewrite ?Hs. cbn. repeat split; lia. }
    unfold is_positional_token in Hpos.
    apply orb_false_elim in Hpos as [_ H0].
    apply negb_false_iff, bool_decide_eq_true in H0.
    destruct (bool_decide (Str.at_ 1 arg = "-"%char)) eqn:H1; cbn [negb].
    + apply bool_decide_eq_true in H1. unfold long_rule. fold (long_key arg).
      destruct (map_ P !! long_key arg) as [q |] eqn:Hq.
      * unfold bind.
        destruct (Param_parse q (start c) m) as [m1 [i | e | |]] eqn:E;
          try discriminate.
        unfold ret. intros [= _ <-]. apply Param_parse_inc in E.
        destruct E as [(-> & o & Ho & HT) | E].
        -- left. split; [unfold advance; cbn; now destruct c |].
           right. exists (long_key arg), q, o. repeat split; try assumption.
           now apply long_key_double_dash.
        -- right. left. exists (Z.to_nat i). unfold advance.
           cbn [start next positional_onward].
           destruct E as [(-> & _) | (-> & E)]; rewrite ?Hs in *; cbn in *;
             repeat split; auto; lia.
      * destruct (strict_ P) eqn:Hst; [discriminate |].
        unfold ret. intros [= _ <-]. left. split; [reflexivity | now left].
    + unfold short_rule, bind.
      destruct (short_options P (start c) (Str.substr 1 arg) None m)
        as [m1 [[n |] | e | |]] eqn:E; try discriminate.
      unfold ret. intros [= _ <-]. right. left.
      apply short_options_inc in E.
      exists (Z.to_nat (if 0 <? n then n else 1)). unfold advance.
      cbn [start next positional_onward]. rewrite ?Hs in *.
      destruct E as [[=] | [-> | [(-> & _) | (-> & E)]]]; cbn in *;
        repeat split; auto; lia.
Qed.


(** A token which reaches the last branch of the loop body is a long
    token, met while options are still scanned. *)
Lemma long_token_dispatch (c : cursor) arg :
  is_positional_token c arg = false ->
  bool_decide (arg = "--") = false ->
  Str.at_ 1 arg = "-"%char ->
  positional_onward c = false /\ is_long_token arg = true.
Proof.
  unfold is_positional_token, is_long_token. intros Hpos Ht H1.
  apply orb_false_elim in Hpos as [Hpos H0].
  apply orb_false_elim in Hpos as [Hpos _].
  apply orb_false_elim in Hpos as [Hpos _].
  apply negb_false_iff in H0. split; [exact Hpos |].
  rewrite H0, Ht. rewrite bool_decide_eq_true_2 by exact H1. reflexivity.
Qed.

(** X6: what an iteration which returns has done to the cursor. It hands
    back the cursor it was given, and so stalls the loop, in two
    situations only: in lenient mode, with the memory untouched, when the
    token at the cursor is a positional one and no positional parameter
    is left, or is a long token whose alias is not declared; and, in
    either mode, when the token at the cursor is a long token whose alias
    designates a [Param<bool>], which is then set and marked found. Every
    other iteration consumes at least one token or moves on to the next
    positional parameter. *)
Theorem iteration_stalls_only_lenient_or_long_flag (P : Params) (c c' : cursor)
    m m' :
  start c <> [] ->
  iteration P c m = (m', Ret c') ->
  (c' = c /\ m' = m /\ strict_ P = false
   /\ exists arg rest,
        start c = arg :: rest
        /\ ((is_positional_token c arg = true /\ positional_ P !! next c = None)
            \/ (positional_onward c = false /\ is_long_token arg = true
                /\ map_ P !! long_key arg = None)))
  \/ (c' = c
      /\ exists arg rest p o,
           start c = arg :: rest
           /\ positional_onward c = false /\ is_long_token arg = true
           /\ map_ P !! long_key arg = Some p
           /\ objs m !! p = Some o /\ T_ o = TBool
           /\ m' = mkMemory (<[p := mark_found o]> (objs m))
                            (<[target_ o := VBool true]> (vars m)))
  \/ (exists k, (1 <= k <= length (start c))%nat /\ start c' = drop k (start c))
  \/ (next c' = S (next c) /\ (next c < length (positional_ P))%nat).
Proof.
  intros Hne. unfold iteration. destruct (start c) as [| arg rest] eqn:Hs;
    [contradiction |].
  destruct (is_positional_token c arg) eqn:Hpos.
  - unfold positional_rule.
    destruct (positional_ P !! next c) as [q |] eqn:Hq.
    + unfold bind.
      destruct (Param_parse q (start c) m) as [m1 [i | e | |]] eqn:E;
        try discriminate.
      unfold ret. intros [= _ <-]. right. right. right.
      cbn [next]. split; [reflexivity |]. now apply lookup_lt_Some in Hq.
    + destruct (strict_ P) eqn:Hst; [discriminate |].
      unfold ret. intros [= <- <-]. left. repeat split.
      exists arg, rest. split; [reflexivity |]. now left.
  - destruct (bool_decide (arg = "--")) eqn:Ht.
    { unfold ret. intros [= _ <-]. right. right. left. exists 1%nat.
      cbn [start]. rewrite ?Hs. cbn. split; [lia | reflexivity]. }
    destruct (bool_decide (Str.at_ 1 arg = "-"%char)) eqn:H1; cbn [negb].
    + apply bool_decide_eq_true in H1.
      destruct (long_token_dispatch c arg Hpos Ht H1) as [Hpo Hlong].
      unfold long_rule. fold (long_key arg).
      destruct (map_ P !! long_key arg) as [q |] eqn:Hq.
      * unfold bind.
        destruct (Param_parse q (start c) m) as [m1 [i | e | |]] eqn:E;
          try discriminate.
        unfold ret. intros [= <- <-]. pose proof E as E'.
        apply Param_parse_inc in E' as [(-> & o & Ho & HT) | [(-> & _) | (-> & Hl)]].
        -- right. left. split; [unfold advance; cbn; now destruct c |].
           exists arg, rest, q, o.
           rewrite (Param_parse_bool q o _ m Ho HT) in E by (rewrite Hs; discriminate).
           injection E as <-. repeat split; assumption || reflexivity.
        -- right. right. left. exists 1%nat. unfold advance. cbn [start].
           rewrite Hs. cbn. split; [lia | reflexivity].
        -- right. right. left. exists 2%nat. unfold advance. cbn [start].
           rewrite Hs in Hl |- *. cbn in Hl |- *. split; [lia | reflexivity].
      * destruct (strict_ P) eqn:Hst; [discriminate |].
        unfold ret. intros [= <- <-]. left. repeat split.
        exists arg, rest. split; [reflexivity |]. right. auto.
    + unfold short_rule, bind.
      destruct (short_options P (start c) (Str.substr 1 arg) None m)
        as [m1 [[n |] | e | |]] eqn:E; try discriminate.
      unfold ret. intros [= _ <-]. right. right. left.
      apply short_options_inc in E.
      exists (Z.to_nat (if 0 <? n then n else 1)). unfold advance.
      cbn [start]. rewrite ?Hs in *.
      destruct E as [[=] | [-> | [(-> & _) | (-> & E)]]]; cbn in *;
        (split; [lia | reflexivity]).
Qed.

Lemma iteration_progress (P : Params) (c c' : cursor) m m' :
  strict_ P = true ->
  no_long_flag P m ->
  start c <> [] ->
  iteration P c m = (m', Ret c') ->
  (measure P c' < measure P c)%nat.
Proof.
  intros Hst Hnf Hne H. unfold measure.
  destruct (iteration_cursor_cases P c c' m m' Hne H)
    as [(_ & [Hc | (name & p & o & Hm & Hd & Ho & HT)])
       | [(k & Hk & E & En & _) | (k & Hk & E & En & Hl & _)]].
  - congruence.
  - now destruct (Hnf name p o Hm Hd Ho).
  - rewrite E, En, length_drop. lia.
  - rewrite E, En, length_drop. lia.
Qed.

Lemma frame_no_long_flag (P : Params) m m' :
  frame P m m' -> no_long_flag P m -> no_long_flag P m'.
Proof.
  intros (_ & _ & T & _) Hn name p o' Hm Hd Ho'.
  destruct (T p o' Ho') as (o & Ho & [-> | ->]).
  - exact (Hn name p o Hm Hd Ho).
  - exact (Hn name p o Hm Hd Ho).
Qed.

Lemma scan_ends (P : Params) :
  strict_ P = true ->
  forall n (c : cursor) m,
    no_long_flag P m ->
    (measure P c <= n)%nat ->
    exists out, scan n P c m = Some out.
Proof.
  intros Hst. induction n as [| n IH]; intros c m Hnf Hm; simpl.
  - destruct (start c) eqn:Hs; [eauto |]. unfold measure in Hm. rewrite Hs in Hm.
    cbn in Hm. lia.
  - destruct (start c) as [| arg rest] eqn:Hs; [eauto |].
    destruct (iteration P c m) as [m1 [c1 | e | |]] eqn:E; eauto.
    assert (Hne : start c <> []) by (rewrite Hs; discriminate).
    apply IH.
    + exact (frame_no_long_flag P m m1 (iteration_frame P c m m1 _ E) Hnf).
    + pose proof (iteration_progress P c c1 m m1 Hst Hnf Hne E). lia.
Qed.

Lemma scan_more_fuel (P : Params) :
  forall n (c : cursor) m out,
    scan n P c m = Some out -> scan (S n) P c m = Some out.
Proof.
  induction n as [| n IH]; intros c m out.
  - cbn. destruct (start c); [auto | discriminate].
  - intros H. cbn [scan] in H |- *. destruct (start c) as [| arg rest]; [exact H |].
    destruct (iteration P c m) as [m1 [c1 | e | |]]; try exact H.
    apply IH. exact H.
Qed.

Lemma scan_enough_fuel (P : Params) n k (c : cursor) m out :
  scan n P c m = Some out -> scan (n + k) P c m = Some out.
Proof.
  intros H. induction k as [| k IH].
  - now rewrite Nat.add_0_r.
  - rewrite Nat.add_succ_r. now apply scan_more_fuel.
Qed.

(** X7: in strict mode, when no alias with two markers designates a flag,
    [parse] ends, by returning or otherwise, within as many iterations as
    there are tokens and positional parameters; more fuel gives the same
    end. *)
Theorem strict_parse_without_long_flag_ends (P : Params) argv m :
  strict_ P = true ->
  no_long_flag P m ->
  exists out,
    forall fuel,
      (length argv + length (positional_ P) <= fuel)%nat ->
      parse fuel P argv m = Some out.
Proof.
  intros Hst Hnf.
  destruct (scan_ends P Hst (length argv + length (positional_ P))
              (mkCursor argv 0 false) m Hnf) as [out Hout].
  { unfold measure. cbn. lia. }
  exists (match out with
          | (m', Ret _) => check_all P m'
          | (m', Throw e) => (m', Throw e)
          | (m', Aborted) => (m', Aborted)
          | (m', Undef) => (m', Undef)
          end).
  intros fuel Hf. unfold parse.
  replace fuel with ((length argv + length (positional_ P))
                     + (fuel - (length argv + length (positional_ P))))%nat by lia.
  rewrite (scan_enough_fuel P _ _ _ _ _ Hout).
  destruct out as [m' [c' | e | |]]; reflexivity.
Qed.

End Progress.

Section Tokens.

Context {C : StdConv}.

Lemma short_options_no_match (P : Params) start chars :
  strict_ P = false ->
  (forall ch, ch ∈ list_ascii_of_string chars ->
     map_ P !! String "-" (String ch EmptyString) = None) ->
  forall inc m, short_options P start chars inc m = (m, Ret inc).
Proof.
  intros Hst. induction chars as [| ch rest IH]; intros Hall inc m; [reflexivity |].
  cbn [short_options]. rewrite Hall by (cbn; apply list_elem_of_here).
  rewrite Hst. apply IH. intros ch' Hin. apply Hall. cbn.
  now apply list_elem_of_further.
Qed.

(** X8: in lenient mode, a token of short options none of whose
    characters is declared leaves the local [inc] of the loop without a
    value, and the statement which advances [start] reads it: nothing is
    stored and the behaviour is undefined. *)
Theorem lenient_unmatched_cluster_reads_unassigned_inc (P : Params) (c : cursor)
    arg rest m :
  start c = arg :: rest ->
  positional_onward c = false ->
  Str.at_ 0 arg = "-"%char ->
  Str.at_ 1 arg <> "-"%char ->
  (1 < Str.size arg)%nat ->
  strict_ P = false ->
  (forall ch, ch ∈ list_ascii_of_string (Str.substr 1 arg) ->
     map_ P !! String "-" (String ch EmptyString) = None) ->
  iteration P c m = (m, Undef).
Proof.
  intros Hs Hp H0 H1 Hl Hst Hall.
  rewrite (short_token_dispatch P c arg rest m Hs Hp H0 H1 Hl).
  unfold short_rule, bind.
  now rewrite (short_options_no_match P (start c) _ Hst Hall None m).
Qed.

Lemma find_behind_marker ch text :
  ch <> "="%char ->
  Str.find "=" (String "-" (String ch text)) = S <$> (S <$> Str.find "=" text).
Proof.
  intros Hc. cbn [Str.find].
  destruct (Ascii.eqb_spec "-" "="); [discriminate |].
  destruct (Ascii.eqb_spec ch "="); [contradiction | reflexivity].
Qed.

(** X9: a short option takes the same value whether the text is appended
    to it or given as the next token, as long as the text is not empty and
    holds no [=]: [-cV] consumes one token, [-c V] two, and both leave the
    same memory and the same tokens to scan. A conversion which throws
    stores nothing. *)
Theorem short_option_value_appended_or_separate (P : Params) m ch text
    (p : ptr) (o : Param) rest (n : nat) :
  ch <> "-"%char ->
  ch <> "="%char ->
  text <> EmptyString ->
  Str.find "=" text = None ->
  map_ P !! String "-" (String ch EmptyString) = Some p ->
  objs m !! p = Some o ->
  T_ o <> TBool ->
  option_ o = Some true ->
  let outcome :=
    match conversion (T_ o) text with
    | inr v =>
        (mkMemory (<[p := mark_found o]> (objs m)) (<[target_ o := v]> (vars m)),
         Ret (mkCursor rest n false))
    | inl e => (m, Throw e)
    end in
  iteration P (mkCursor (String "-" (String ch text) :: rest) n false) m = outcome
  /\ iteration P (mkCursor (String "-" (String ch EmptyString) :: text :: rest) n false) m
     = outcome.
Proof.
  intros Hd He Ht Hf Hm Ho HT Hopt outcome. subst outcome. split.
  - rewrite (short_token_dispatch P
               (mkCursor (String "-" (String ch text) :: rest) n false)
               (String "-" (String ch text)) rest m
               eq_refl eq_refl eq_refl) by (cbn; congruence || lia).
    unfold short_rule. cbn [start Str.substr].
    destruct text as [| t text']; [contradiction |].
    cbn [short_options]. rewrite Hm. unfold bind at 1. unfold bind at 1.
    rewrite (Param_parse_value p o _ m Ho HT) by discriminate.
    rewrite (value_token_longer_than_two o _ rest Hopt); [| | cbn; lia].
    2:{ rewrite (find_behind_marker ch _ He), Hf. reflexivity. }
    cbn [Str.substr].
    destruct (conversion (T_ o) (String t text')) as [e | v]; reflexivity.
  - rewrite (short_token_dispatch P
               (mkCursor (String "-" (String ch EmptyString) :: text :: rest) n false)
               (String "-" (String ch EmptyString))
               (text :: rest) m eq_refl eq_refl eq_refl) by (cbn; congruence || lia).
    unfold short_rule. cbn [start Str.substr short_options].
    rewrite Hm. unfold bind at 1. unfold bind at 1.
    rewrite (Param_parse_value p o _ m Ho HT) by discriminate.
    rewrite (value_separate_token o _ (text :: rest) Hopt); [| | cbn; lia].
    2:{ rewrite (find_behind_marker ch _ He). reflexivity. }
    destruct (conversion (T_ o) text) as [e | v]; reflexivity.
Qed.

Lemma find_append_equals k text :
  Str.find "=" k = None ->
  Str.find "=" (String.append k (String "=" text)) = Some (String.length k).
Proof.
  induction k as [| a k IH]; simpl.
  - reflexivity.
  - destruct (Ascii.eqb a "="); [discriminate |].
    destruct (Str.find "=" k) eqn:E; [discriminate |]. intros _.
    now rewrite (IH eq_refl).
Qed.

Lemma take_append k s : Str.take (String.length k) (String.append k s) = k.
Proof.
  induction k as [| a k IH]; simpl.
  - now destruct s.
  - now rewrite IH.
Qed.

Lemma substr_append k a s :
  Str.substr (S (String.length k)) (String.append k (String a s)) = s.
Proof. induction k as [| b k IH]; [reflexivity | exact IH]. Qed.

(** X10: a long option written [--name=text] takes as value the text
    behind the first [=], whatever it holds, and consumes that one token;
    the alias looked up is the text before the [=]. A conversion which
    throws stores nothing and leaves [found_] as it was. *)
Theorem long_option_value_behind_first_equals (P : Params) m k text
    (p : ptr) (o : Param) rest (n : nat) :
  Str.find "=" k = None ->
  map_ P !! String "-" (String "-" k) = Some p ->
  objs m !! p = Some o ->
  T_ o <> TBool ->
  option_ o = Some true ->
  iteration P
    (mkCursor (String "-" (String "-" (String.append k (String "=" text))) :: rest)
              n false) m
  = match conversion (T_ o) text with
    | inr v =>
        (mkMemory (<[p := mark_found o]> (objs m)) (<[target_ o := v]> (vars m)),
         Ret (mkCursor rest n false))
    | inl e => (m, Throw e)
    end.
Proof.
  intros Hf Hm Ho HT Hopt.
  set (arg := String "-" (String "-" (String.append k (String "=" text)))).
  assert (Hfind : Str.find "=" arg = Some (S (S (String.length k)))).
  { subst arg. rewrite find_behind_marker by discriminate.
    now rewrite (find_append_equals k text Hf). }
  assert (Hlong : is_long_token arg = true).
  { subst arg. unfold is_long_token.
    apply andb_true_intro. split; [apply andb_true_intro; split |].
    - now apply bool_decide_eq_true.
    - now apply bool_decide_eq_true.
    - apply negb_true_iff, bool_decide_eq_false.
      intros E. injection E as E. destruct k; discriminate. }
  rewrite (iteration_long P (mkCursor (arg :: rest) n false) arg rest m
             eq_refl eq_refl Hlong).
  unfold long_rule. rewrite Hfind.
  assert (Hkey : Str.take (S (S (String.length k))) arg = String "-" (String "-" k)).
  { subst arg. cbn [Str.take]. now rewrite take_append. }
  rewrite Hkey, Hm. unfold bind.
  cbn [start].
  rewrite (Param_parse_value p o _ m Ho HT) by discriminate.
  rewrite (value_equals o arg rest _ Hopt Hfind).
  assert (Hval : Str.substr (S (S (String.length k)) + 1) arg = text).
  { subst arg.
    replace (S (S (String.length k)) + 1)%nat with (S (S (S (String.length k))))
      by lia.
    exact (substr_append k "=" text). }
  rewrite Hval.
  destruct (conversion (T_ o) text) as [e | v]; reflexivity.
Qed.

(** X11: a token which is empty, is the lone marker, or does not start
    with the marker goes to the next positional parameter. When that is a
    string parameter declared under bare names, the token is stored as it
    stands and one token is consumed. *)
Theorem bare_token_goes_to_next_positional (P : Params) (c : cursor) m arg rest
    (p : ptr) (o : Param) :
  start c = arg :: rest ->
  arg = EmptyString \/ arg = "-" \/ Str.at_ 0 arg <> "-"%char ->
  positional_ P !! next c = Some p ->
  objs m !! p = Some o ->
  T_ o = TString ->
  option_ o = Some false ->
  iteration P c m
  = (mkMemory (<[p := mark_found o]> (objs m))
              (<[target_ o := VString arg]> (vars m)),
     Ret (mkCursor rest (S (next c)) (positional_onward c))).
Proof.
  intros Hs Harg Hn Ho HT Hopt. unfold iteration. rewrite Hs.
  assert (Hpos : is_positional_token c arg = true).
  { unfold is_positional_token.
    destruct Harg as [-> | [-> | Ha]].
    - now rewrite orb_true_r.
    - now rewrite !orb_true_r.
    - rewrite (bool_decide_eq_false_2 _ Ha). now rewrite !orb_true_r. }
  rewrite Hpos. unfold positional_rule. rewrite Hn.
  erewrite bind_ret.
  2:{ rewrite (Param_parse_value p o (start c) m Ho) by (rewrite ?HT, ?Hs; discriminate).
      rewrite Hs, (value_positional o arg rest Hopt), HT. reflexivity. }
  unfold ret. rewrite Hs. reflexivity.
Qed.

(** X12: a positional parameter of type [bool] is set by the positional
    token it meets but does not consume it: [start] stays on the token,
    which goes to the positional parameter after it. *)
Theorem positional_flag_consumes_no_token (P : Params) (c : cursor) m arg rest
    (p : ptr) (o : Param) :
  start c = arg :: rest ->
  is_positional_token c arg = true ->
  positional_ P !! next c = Some p ->
  objs m !! p = Some o ->
  T_ o = TBool ->
  iteration P c m
  = (mkMemory (<[p := mark_found o]> (objs m))
              (<[target_ o := VBool true]> (vars m)),
     Ret (mkCursor (arg :: rest) (S (next c)) (positional_onward c))).
Proof.
  intros Hs Hpos Hn Ho HT. unfold iteration. rewrite Hs, Hpos.
  unfold positional_rule. rewrite Hn.
  erewrite bind_ret.
  2:{ apply (Param_parse_bool p o (start c) m Ho HT). rewrite Hs. discriminate. }
  unfold ret. rewrite Hs. reflexivity.
Qed.

End Tokens.

Section Postconditions.

Context {C : StdConv}.

(** A property of the memory which every call of [Param<T>::parse]
    keeps is kept by the scan. *)
Lemma short_options_lift (P : Params) (R : Memory -> Memory -> Prop) start chars :
  (forall m, R m m) ->
  (forall m1 m2 m3, R m1 m2 -> R m2 m3 -> R m1 m3) ->
  (forall q s m m' (r : result Z), Param_parse q s m = (m', r) -> R m m') ->
  forall inc m m' (r : result (option Z)),
    short_options P start chars inc m = (m', r) -> R m m'.
Proof.
  intros Hrefl Htrans Hstep.
  induction chars as [| ch rest IH]; intros inc m m' r; cbn [short_options].
  - intros [= <- _]. apply Hrefl.
  - destruct (map_ P !! String "-" (String ch EmptyString)) as [q |].
    + unfold bind.
      destruct (Param_parse q start m) as [m1 [n | e | |]] eqn:E;
        try (intros [= <- _]; exact (Hstep _ _ _ _ _ E)).
      destruct (0 <? n).
      * intros [= <- _]. exact (Hstep _ _ _ _ _ E).
      * intros H. exact (Htrans _ _ _ (Hstep _ _ _ _ _ E) (IH _ _ _ _ H)).
    + destruct (strict_ P).
      * intros [= <- _]. apply Hrefl.
      * apply IH.
Qed.

Lemma iteration_lift (P : Params) (R : Memory -> Memory -> Prop) :
  (forall m, R m m) ->
  (forall m1 m2 m3, R m1 m2 -> R m2 m3 -> R m1 m3) ->
  (forall q s m m' (r : result Z), Param_parse q s m = (m', r) -> R m m') ->
  forall (c : cursor) m m' (r : result cursor),
    iteration P c m = (m', r) -> R m m'.
Proof.
  intros Hrefl Htrans Hstep c m m' r. unfold iteration.
  destruct (start c) as [| arg rest] eqn:Hs.
  { intros [= <- _]. apply Hrefl. }
  destruct (is_positional_token c arg).
  - unfold positional_rule. destruct (positional_ P !! next c) as [q |].
    + unfold bind.
      destruct (Param_parse q (start c) m) as [m1 [n | e | |]] eqn:E;
        intros [= <- _]; exact (Hstep _ _ _ _ _ E).
    + destruct (strict_ P); intros [= <- _]; apply Hrefl.
  - destruct (bool_decide (arg = "--")).
    { intros [= <- _]. apply Hrefl. }
    destruct (negb (bool_decide (Str.at_ 1 arg = "-"%char))).
    + unfold short_rule, bind.
      destruct (short_options P (start c) (Str.substr 1 arg) None m)
        as [m1 [[n |] | e | |]] eqn:E;
        intros [= <- _]; exact (short_options_lift P R _ _ Hrefl Htrans Hstep _ _ _ _ E).
    + unfold long_rule.
      destruct (map_ P !! _) as [q |].
      * unfold bind.
        destruct (Param_parse q (start c) m) as [m1 [n | e | |]] eqn:E;
          intros [= <- _]; exact (Hstep _ _ _ _ _ E).
      * destruct (strict_ P); intros [= <- _]; apply Hrefl.
Qed.

Lemma parse_lift (P : Params) (R : Memory -> Memory -> Prop) :
  (forall m, R m m) ->
  (forall m1 m2 m3, R m1 m2 -> R m2 m3 -> R m1 m3) ->
  (forall q s m m' (r : result Z), Param_parse q s m = (m', r) -> R m m') ->
  forall fuel argv m m' (r : result unit),
    parse fuel P argv m = Some (m', r) -> R m m'.
Proof.
  intros Hrefl Htrans Hstep.
  assert (Hscan : forall fuel (c : cursor) m m' (r : result cursor),
             scan fuel P c m = Some (m', r) -> R m m').
  { induction fuel as [| fuel IH]; intros c m m' r; simpl.
    - destruct (start c); [| discriminate]. intros [= <- _]. apply Hrefl.
    - destruct (start c) as [| arg rest].
      { intros [= <- _]. apply Hrefl. }
      destruct (iteration P c m) as [m1 [c1 | e | |]] eqn:E;
        try (intros [= <- _]; exact (iteration_lift P R Hrefl Htrans Hstep _ _ _ _ E)).
      intros H.
      exact (Htrans _ _ _ (iteration_lift P R Hrefl Htrans Hstep _ _ _ _ E)
               (IH _ _ _ _ H)). }
  intros fuel argv m m' r. unfold parse.
  destruct (scan fuel P (mkCursor argv 0 false) m) as [[m1 [c1 | e | |]] |] eqn:E;
    try discriminate;
    try (intros [= <- _]; exact (Hscan _ _ _ _ _ E)).
  intros H. pose proof (check_all_memory P m1) as Hc.
  destruct (check_all P m1) as [m2 r2]. cbn in Hc. injection H as <- _. subst m2.
  exact (Hscan _ _ _ _ _ E).
Qed.

Lemma for_each_check_returned l m m' :
  for_each check l m = (m', Ret tt) ->
  forall p, p ∈ l ->
    exists o, objs m !! p = Some o /\ (required_ o = true -> found_ o = Some true).
Proof.
  induction l as [| q l IH]; intros H p Hp; [now apply not_elem_of_nil in Hp |].
  cbn [for_each] in H. unfold bind in H.
  destruct (check q m) as [m1 [[] | e | |]] eqn:E; try discriminate.
  pose proof (check_memory q m) as Hm. rewrite E in Hm. cbn in Hm. subst m1.
  apply elem_of_cons in Hp as [-> | Hp]; [| exact (IH H p Hp)].
  revert E. unfold check, bind, deref.
  destruct (objs m !! q) as [o |]; [| discriminate].
  intros E. exists o. split; [reflexivity |]. intros Hr. rewrite Hr in E.
  destruct (found_ o) as [[|] |]; [reflexivity | discriminate | discriminate].
Qed.

(** X13: when [parse] returns normally, every required parameter which
    is designated by an alias or is positional has its [found_] set: a
    normal return means no required parameter is missing. *)
Theorem parse_returns_only_with_required_found fuel (P : Params) argv m m' :
  parse fuel P argv m = Some (m', Ret tt) ->
  forall p, audited P p ->
    exists o, objs m' !! p = Some o /\ (required_ o = true -> found_ o = Some true).
Proof.
  unfold parse.
  destruct (scan fuel P (mkCursor argv 0 false) m) as [[m1 [c1 | e | |]] |];
    try discriminate.
  intros H. injection H as H.
  pose proof (check_all_memory P m1) as Hm. rewrite H in Hm. cbn in Hm. subst m'.
  revert H. unfold check_all, bind.
  destruct (for_each check (map_to_list (map_ P)).*2 m1) as [m2 [[] | e | |]] eqn:E1;
    try discriminate.
  pose proof (for_each_check_memory (map_to_list (map_ P)).*2 m1) as Hm.
  rewrite E1 in Hm. cbn in Hm. subst m2.
  intros E2 p [Hp | Hp].
  - exact (for_each_check_returned _ _ _ E1 p Hp).
  - exact (for_each_check_returned _ _ _ E2 p Hp).
Qed.

Lemma Param_parse_vars_length (q : ptr) s m m' (r : result Z) :
  Param_parse q s m = (m', r) -> length (vars m') = length (vars m).
Proof.
  intros H. apply Param_parse_memory in H as [-> | (o & v & _ & ->)];
    [reflexivity |]. cbn. apply length_insert.
Qed.

(** X14: whichever way [parse] ends, it has changed nothing but [found_]
    members, which it only ever sets, and contents of variables: no object
    and no variable is added or removed, and the type, target, names,
    class and required mark of every parameter are as they were. *)
Theorem parse_changes_only_found_and_targets fuel (P : Params) argv m m'
    (r : result unit) :
  parse fuel P argv m = Some (m', r) ->
  length (objs m') = length (objs m)
  /\ length (vars m') = length (vars m)
  /\ forall p o, objs m !! p = Some o ->
       exists o', objs m' !! p = Some o'
         /\ T_ o' = T_ o /\ target_ o' = target_ o /\ names_ o' = names_ o
         /\ option_ o' = option_ o /\ required_ o' = required_ o
         /\ (found_ o' = found_ o \/ found_ o' = Some true).
Proof.
  intros H. pose proof (parse_frame fuel P argv m m' r H) as (L & _ & T & _).
  split; [exact L |]. split.
  - revert H. apply (parse_lift P (fun m m' => length (vars m') = length (vars m))).
    + reflexivity.
    + intros m1 m2 m3 H1 H2. congruence.
    + exact Param_parse_vars_length.
  - intros p o Ho.
    destruct (objs m' !! p) as [o' |] eqn:Ho'.
    2:{ apply lookup_ge_None in Ho'. apply lookup_lt_Some in Ho. lia. }
    destruct (T p o' Ho') as (o0 & Ho0 & E). rewrite Ho in Ho0. injection Ho0 as <-.
    exists o'. split; [reflexivity |].
    destruct E as [-> | ->]; cbn; repeat split; auto.
Qed.

End Postconditions.

Section Typing.

Context {C : StdConv}.

Lemma conversion_type T text v : conversion T text = inr v -> type_of v = T.
Proof.
  destruct T; unfold conversion; cbn;
    try (intros [= <-]; reflexivity);
    match goal with
    | |- context [sum_map _ _ ?x] => destruct x; cbn; intros [= <-]; reflexivity
    end.
Qed.

Lemma type_of_value_init T : type_of (value_init T) = T.
Proof. now destruct T. Qed.

(** [Param<T>::parse] stores a value of its own type only. *)
Lemma Param_parse_typed (q : ptr) start m m' (r : result Z) :
  Param_parse q start m = (m', r) ->
  m' = m
  \/ exists o v, objs m !! q = Some o /\ type_of v = T_ o
       /\ m' = mkMemory (<[q := mark_found o]> (objs m)) (<[target_ o := v]> (vars m)).
Proof.
  destruct (objs m !! q) as [o |] eqn:Ho.
  2:{ unfold Param_parse, bind, deref. rewrite Ho. intros [= <- _]. now left. }
  destruct start as [| tok rest].
  { unfold Param_parse, bind, deref. rewrite Ho. simpl. intros [= <- _]. now left. }
  destruct (decide (T_ o = TBool)) as [HT | HT].
  - rewrite (Param_parse_bool q o _ m Ho HT) by discriminate.
    intros [= <- _]. right. exists o, (VBool true). now rewrite HT.
  - rewrite (Param_parse_value q o _ m Ho HT) by discriminate.
    destruct (value o (tok :: rest)) as [[text inc] | e | |];
      try (intros [= <- _]; now left).
    destruct (conversion (T_ o) text) as [e | v] eqn:Ec; intros [= <- _]; [now left |].
    right. exists o, v. split; [reflexivity |]. split; [| reflexivity].
    exact (conversion_type _ _ _ Ec).
Qed.

Lemma Param_parse_well_typed (q : ptr) start m m' (r : result Z) :
  Param_parse q start m = (m', r) -> well_typed m -> well_typed m'.
Proof.
  intros H Hw. apply Param_parse_typed in H as [-> | (o & v & Ho & Hv & ->)];
    [exact Hw |].
  destruct (Hw q o Ho) as (v0 & Hv0 & Ht0).
  intros p o' Ho'. cbn [objs vars] in *.
  assert (Hold : exists o0, objs m !! p = Some o0
                            /\ target_ o' = target_ o0 /\ T_ o' = T_ o0).
  { destruct (decide (q = p)) as [<- | Hne].
    - rewrite list_lookup_insert_eq in Ho' by (now apply lookup_lt_Some in Ho).
      injection Ho' as <-. exists o. auto.
    - rewrite list_lookup_insert_ne in Ho' by exact Hne. exists o'. auto. }
  destruct Hold as (o0 & Ho0 & -> & ->).
  destruct (Hw p o0 Ho0) as (v1 & Hv1 & Ht1).
  destruct (decide (target_ o = target_ o0)) as [E | Hne].
  - exists v. rewrite <- E.
    rewrite list_lookup_insert_eq by (now apply lookup_lt_Some in Hv0).
    split; [reflexivity |]. rewrite <- E in Hv1. congruence.
  - exists v1. rewrite list_lookup_insert_ne by exact Hne. auto.
Qed.

Lemma add_value_well_typed T names required (P P' : Params) m m' :
  add_value T names required P m = (m', Ret P') -> well_typed m -> well_typed m'.
Proof.
  unfold add_value. intros H Hw.
  apply add_returns in H as (opt & option & _ & _ & -> & _).
  intros p o Ho. cbn [objs vars] in *.
  apply lookup_app_Some in Ho as [Ho | [_ Ho]].
  - destruct (Hw p o Ho) as (v & Hv & Ht). exists v. split; [| exact Ht].
    now apply lookup_app_l_Some.
  - apply list_lookup_singleton_Some in Ho as [_ <-]. cbn [target_ T_].
    exists (value_init T). split; [| apply type_of_value_init].
    now apply list_lookup_middle.
Qed.

(** X15: targets keep their types. When the variable each parameter
    refers to holds a value of the parameter's type, as is the case for
    the variables made by [add<T>(names)], it is still so whichever way
    [parse] ends: each [Param<T>::parse] stores a [T]. *)
Theorem parse_keeps_targets_typed fuel (P : Params) argv m m' (r : result unit) :
  well_typed m ->
  parse fuel P argv m = Some (m', r) ->
  well_typed m'.
Proof.
  intros Hw H. revert H Hw.
  apply (parse_lift P (fun m m' => well_typed m -> well_typed m')).
  - auto.
  - auto.
  - exact Param_parse_well_typed.
Qed.

(** X16: what could be read with [get<T>] before [parse] can be read with
    it afterwards, whichever way [parse] ended, and is a value of type
    [T]: [parse] never makes [get] throw. *)
Theorem get_still_returns_after_parse fuel (P : Params) argv m m'
    (r : result unit) T name v :
  well_typed m ->
  get T name P m = (m, Ret v) ->
  parse fuel P argv m = Some (m', r) ->
  exists v', get T name P m' = (m', Ret v') /\ type_of v' = T.
Proof.
  intros Hw Hg H.
  assert (Hw' : well_typed m').
  { revert H Hw. apply (parse_lift P (fun m m' => well_typed m -> well_typed m'));
      [auto | auto | exact Param_parse_well_typed]. }
  pose proof (parse_frame fuel P argv m m' r H) as (L & _ & Tr & _).
  revert Hg. unfold get.
  destruct (map_ P !! name) as [p |]; [| discriminate].
  unfold bind, deref.
  destruct (objs m !! p) as [o |] eqn:Ho; [| discriminate].
  destruct (bool_decide (T_ o = T)) eqn:HT; [| discriminate].
  apply bool_decide_eq_true in HT. intros _.
  destruct (objs m' !! p) as [o' |] eqn:Ho'.
  2:{ apply lookup_ge_None in Ho'. apply lookup_lt_Some in Ho. lia. }
  destruct (Tr p o' Ho') as (o0 & Ho0 & E).
  assert (E0 : Some o = Some o0) by (rewrite <- Ho; exact Ho0).
  injection E0 as <-.
  destruct (Hw' p o' Ho') as (v' & Hv' & Ht').
  assert (HT' : T_ o' = T) by (destruct E as [-> | ->]; exact HT).
  rewrite (bool_decide_eq_true_2 _ HT'). rewrite Hv'.
  exists v'. split; [reflexivity | congruence].
Qed.

End Typing.

Section Flags.

Context {C : StdConv}.

Lemma mark_found_twice (o : Param) : mark_found (mark_found o) = mark_found o.
Proof. reflexivity. Qed.

Lemma flags_only_refl m : flags_only m m.
Proof. unfold flags_only. auto. Qed.

Lemma flags_only_trans m1 m2 m3 :
  flags_only m1 m2 -> flags_only m2 m3 -> flags_only m1 m3.
Proof.
  intros (O1 & L1 & V1) (O2 & L2 & V2). unfold flags_only. repeat split.
  - intros p o Ho. destruct (O1 p o Ho) as [H | H];
      destruct (O2 p _ H) as [H' | H']; auto.
  - congruence.
  - intros a. destruct (V2 a) as [-> | ->]; auto.
Qed.

Lemma Param_parse_flag_only (p : ptr) (o : Param) m :
  objs m !! p = Some o ->
  flags_only m (mkMemory (<[p := mark_found o]> (objs m))
                         (<[target_ o := VBool true]> (vars m))).
Proof.
  intros Ho. unfold flags_only. cbn [objs vars]. repeat split.
  - intros q oq Hq. destruct (decide (p = q)) as [<- | Hne].
    + right. rewrite list_lookup_insert_eq by (now apply lookup_lt_Some in Ho).
      assert (E : Some o = Some oq) by (rewrite <- Ho; exact Hq).
      now injection E as <-.
    + left. now rewrite list_lookup_insert_ne.
  - apply length_insert.
  - intros a. destruct (decide (target_ o = a)) as [<- | Hne].
    + destruct (decide (target_ o < length (vars m))%nat) as [Hl | Hl].
      * right. now apply list_lookup_insert_eq.
      * left. rewrite list_insert_ge by lia. reflexivity.
    + left. now apply list_lookup_insert_ne.
Qed.

Lemma short_options_flags (P : Params) start chars :
  start <> [] ->
  forall inc m,
    (forall ch, ch ∈ list_ascii_of_string chars ->
       exists p o, map_ P !! String "-" (String ch EmptyString) = Some p
                   /\ objs m !! p = Some o /\ T_ o = TBool) ->
    exists m',
      short_options P start chars inc m
      = (m', Ret (match chars with EmptyString => inc | String _ _ => Some 0 end))
      /\ flags_only m m'
      /\ forall ch p o,
           ch ∈ list_ascii_of_string chars ->
           map_ P !! String "-" (String ch EmptyString) = Some p ->
           objs m !! p = Some o ->
           objs m' !! p = Some (mark_found o)
           /\ ((target_ o < length (vars m))%nat ->
               vars m' !! target_ o = Some (VBool true)).
Proof.
  intros Hne. induction chars as [| ch rest IH]; intros inc m Hall.
  - exists m. split; [reflexivity |]. split; [apply flags_only_refl |].
    intros ch p o Hin. now apply not_elem_of_nil in Hin.
  - destruct (Hall ch) as (p & o & Hm & Ho & HT); [cbn; apply list_elem_of_here |].
    cbn [short_options]. rewrite Hm. unfold bind.
    rewrite (Param_parse_bool p o start m Ho HT Hne). cbn [Z.ltb Z.compare].
    set (m1 := mkMemory (<[p := mark_found o]> (objs m))
                        (<[target_ o := VBool true]> (vars m))).
    pose proof (Param_parse_flag_only p o m Ho) as F1. fold m1 in F1.
    assert (Hall1 : forall ch', ch' ∈ list_ascii_of_string rest ->
              exists p' o', map_ P !! String "-" (String ch' EmptyString) = Some p'
                            /\ objs m1 !! p' = Some o' /\ T_ o' = TBool).
    { intros ch' Hin.
      destruct (Hall ch') as (p' & o' & Hm' & Ho' & HT');
        [cbn; now apply list_elem_of_further |].
      destruct F1 as (O1 & _). destruct (O1 p' o' Ho') as [H | H]; eauto. }
    destruct (IH (Some 0) m1 Hall1) as (m' & E & F2 & Hset).
    exists m'. split.
    { rewrite E. destruct rest; reflexivity. }
    split; [exact (flags_only_trans _ _ _ F1 F2) |].
    intros ch0 p0 o0 Hin Hm0 Ho0. cbn in Hin.
    destruct F1 as (O1 & L1 & V1). destruct F2 as (O2 & L2 & V2).
    destruct (decide (ch0 ∈ list_ascii_of_string rest)) as [Hr | Hr].
    + destruct (O1 p0 o0 Ho0) as [H | H];
        destruct (Hset ch0 p0 _ Hr Hm0 H) as [Hobj Hvar];
        cbn [target_ mark_found] in Hvar;
        (split; [exact Hobj | intros Hl; apply Hvar; rewrite L1; exact Hl]).
    + apply elem_of_cons in Hin as [-> | Hin]; [| contradiction].
      rewrite Hm in Hm0. injection Hm0 as <-. rewrite Ho in Ho0. injection Ho0 as <-.
      assert (H1 : objs m1 !! p = Some (mark_found o)).
      { subst m1. cbn. apply list_lookup_insert_eq. now apply lookup_lt_Some in Ho. }
      split.
      * destruct (O2 p _ H1) as [H | H]; exact H.
      * intros Hl. destruct (V2 (target_ o)) as [H | H]; [| exact H].
        rewrite H. subst m1. cbn. now apply list_lookup_insert_eq.
Qed.

(** What one call of [Param<T>::parse] can touch: its own object, and the
    variable that object refers to; targets stay what they were. *)
Lemma Param_parse_touches (q : ptr) start m m' (r : result Z) :
  Param_parse q start m = (m', r) ->
  (forall q', q' <> q -> objs m' !! q' = objs m !! q')
  /\ (forall a : addr,
        (forall o, objs m !! q = Some o -> target_ o <> a) ->
        vars m' !! a = vars m !! a)
  /\ (forall p o', objs m' !! p = Some o' ->
        exists o, objs m !! p = Some o /\ target_ o' = target_ o).
Proof.
  intros H. apply Param_parse_memory in H as [-> | (o & v & Ho & ->)].
  { repeat split; eauto. }
  cbn [objs vars]. repeat split.
  - intros q' Hne. apply list_lookup_insert_ne. congruence.
  - intros a Ha. apply list_lookup_insert_ne. exact (Ha o Ho).
  - intros p o' Ho'. destruct (decide (q = p)) as [<- | Hne].
    + rewrite list_lookup_insert_eq in Ho' by (now apply lookup_lt_Some in Ho).
      injection Ho' as <-. exists o. split; [exact Ho | reflexivity].
    + rewrite list_lookup_insert_ne in Ho' by exact Hne. eauto.
Qed.

Lemma designated_further (P : Params) ch rest q :
  designated P rest q -> designated P (String ch rest) q.
Proof.
  intros (x & Hx & Hm). exists x. split; [| exact Hm].
  cbn. now apply list_elem_of_further.
Qed.

(** A token of short options leaves alone every parameter which none of
    its characters designates, and every variable which none of the
    designated parameters refers to. *)
Lemma short_options_designated (P : Params) start chars :
  forall inc m m' (r : result (option Z)),
    short_options P start chars inc m = (m', r) ->
    (forall q, ~ designated P chars q -> objs m' !! q = objs m !! q)
    /\ (forall a : addr,
          (forall p o, designated P chars p -> objs m !! p = Some o ->
                       target_ o <> a) ->
          vars m' !! a = vars m !! a).
Proof.
  induction chars as [| ch rest IH]; intros inc m m' r; cbn [short_options].
  - intros [= <- _]. auto.
  - destruct (map_ P !! String "-" (String ch EmptyString)) as [q |] eqn:Hq.
    + assert (Hd : designated P (String ch rest) q).
      { exists ch. split; [cbn; apply list_elem_of_here | exact Hq]. }
      unfold bind.
      destruct (Param_parse q start m) as [m1 [n | e | |]] eqn:E;
        apply Param_parse_touches in E as (U1 & V1 & T1).
      1: destruct (0 <? n).
      2: intros H; apply IH in H as [U2 V2]; split.
      2:{ intros q' Hq'. rewrite U2 by (intros Hc; apply Hq'; now apply designated_further).
          apply U1. intros ->. contradiction. }
      2:{ intros a Ha. rewrite V2.
          - apply V1. intros o Ho. exact (Ha q o Hd Ho).
          - intros p o1 Hp Ho1. destruct (T1 p o1 Ho1) as (o & Ho & ->).
            exact (Ha p o (designated_further P ch rest p Hp) Ho). }
      all: intros [= <- _]; split;
        [intros q' Hq'; apply U1; intros ->; contradiction
        | intros a Ha; apply V1; intros o Ho; exact (Ha q o Hd Ho)].
    + destruct (strict_ P).
      * intros [= <- _]. auto.
      * intros H. apply IH in H as [U2 V2]. split.
        -- intros q' Hq'. apply U2. intros Hc. apply Hq'. now apply designated_further.
        -- intros a Ha. apply V2. intros p o Hp Ho.
           exact (Ha p o (designated_further P ch rest p Hp) Ho).
Qed.

(** X17: a token of short options whose characters all designate flags
    sets every one of them and touches nothing else. Each parameter the
    token designates is marked found and its variable is set to [true];
    every other object is as it was, and so is every variable which none
    of the designated flags refers to; no object and no variable is added
    or removed; and exactly that one token is consumed. *)
Theorem flags_cluster_sets_every_flag (P : Params) (c : cursor) m arg rest :
  start c = arg :: rest ->
  positional_onward c = false ->
  Str.at_ 0 arg = "-"%char ->
  Str.at_ 1 arg <> "-"%char ->
  (1 < Str.size arg)%nat ->
  (forall ch, ch ∈ list_ascii_of_string (Str.substr 1 arg) ->
     exists p o, map_ P !! String "-" (String ch EmptyString) = Some p
                 /\ objs m !! p = Some o /\ T_ o = TBool) ->
  exists m',
    iteration P c m = (m', Ret (mkCursor rest (next c) false))
    /\ length (objs m') = length (objs m)
    /\ length (vars m') = length (vars m)
    /\ (forall p o,
          designated P (Str.substr 1 arg) p ->
          objs m !! p = Some o ->
          objs m' !! p = Some (mark_found o)
          /\ ((target_ o < length (vars m))%nat ->
              vars m' !! target_ o = Some (VBool true)))
    /\ (forall q, ~ designated P (Str.substr 1 arg) q -> objs m' !! q = objs m !! q)
    /\ (forall a : addr,
          (forall p o, designated P (Str.substr 1 arg) p -> objs m !! p = Some o ->
                       target_ o <> a) ->
          vars m' !! a = vars m !! a).
Proof.
  intros Hs Hp H0 H1 Hl Hall.
  assert (Hne : start c <> []) by (rewrite Hs; discriminate).
  destruct (short_options_flags P (start c) (Str.substr 1 arg) Hne None m Hall)
    as (m' & E & F & Hset).
  assert (Hit : iteration P c m = (m', Ret (mkCursor rest (next c) false))).
  { rewrite (short_token_dispatch P c arg rest m Hs Hp H0 H1 Hl).
    unfold short_rule, bind. rewrite E.
    destruct arg as [| a [| b r]]; cbn in Hl; try lia.
    cbn [Str.substr]. unfold ret, advance. rewrite Hs, Hp. reflexivity. }
  destruct (short_options_designated P _ _ _ _ _ _ E) as [U V].
  exists m'. split; [exact Hit |].
  split; [exact (proj1 (iteration_frame P c m m' _ Hit)) |].
  split; [exact (proj1 (proj2 F)) |].
  split; [| split; [exact U | exact V]].
  intros p o (ch & Hch & Hm) Ho. exact (Hset ch p o Hch Hm Ho).
Qed.

End Flags.

Section Safety.

Context {C : StdConv}.

(** The second assertion of [value] is reached by an option only, and
    fails on a last token of at most two characters without [=]. *)
Lemma value_aborted (o : Param) start :
  value o start = Aborted ->
  start = []
  \/ (option_ o = Some true
      /\ exists tok, start = [tok] /\ (Str.size tok <= 2)%nat
                     /\ Str.find "=" tok = None).
Proof.
  unfold value. destruct start as [| opt rest]; [now left |].
  destruct (option_ o) as [[|] |]; try discriminate.
  destruct (Str.find "=" opt) eqn:Ef; [discriminate |].
  destruct (2 <? Str.size opt)%nat eqn:El; [discriminate |].
  destruct rest as [| v rest']; [| discriminate].
  intros _. right. split; [reflexivity |]. exists opt. apply Nat.ltb_ge in El. auto.
Qed.

Lemma Param_parse_aborted (q : ptr) start m m' :
  Param_parse q start m = (m', Aborted) ->
  start = []
  \/ (m' = m
      /\ exists o tok,
           objs m !! q = Some o /\ T_ o <> TBool /\ option_ o = Some true
           /\ start = [tok] /\ (Str.size tok <= 2)%nat /\ Str.find "=" tok = None).
Proof.
  destruct (objs m !! q) as [o |] eqn:Ho.
  2:{ unfold Param_parse, bind, deref. rewrite Ho. discriminate. }
  destruct start as [| tok rest]; [now left |].
  destruct (decide (T_ o = TBool)) as [HT | HT].
  - rewrite (Param_parse_bool q o _ m Ho HT) by discriminate. discriminate.
  - rewrite (Param_parse_value q o _ m Ho HT) by discriminate.
    destruct (value o (tok :: rest)) as [[text inc] | e | |] eqn:Ev; try discriminate.
    + destruct (conversion (T_ o) text); discriminate.
    + intros [= <-]. right. split; [reflexivity |].
      destruct (value_aborted o _ Ev) as [Hc | (Hopt & t & Et & Ht)]; [discriminate |].
      exists o, t. auto.
Qed.

Lemma short_options_aborted (P : Params) start chars :
  forall inc m m',
    short_options P start chars inc m = (m', Aborted) ->
    start = []
    \/ exists p o tok,
         designated P chars p
         /\ objs m' !! p = Some o /\ T_ o <> TBool /\ option_ o = Some true
         /\ start = [tok] /\ (Str.size tok <= 2)%nat /\ Str.find "=" tok = None.
Proof.
  induction chars as [| ch rest IH]; intros inc m m'; cbn [short_options];
    [discriminate |].
  assert (Hf : forall m0,
             (start = []
              \/ exists p o tok,
                   designated P rest p
                   /\ objs m0 !! p = Some o /\ T_ o <> TBool /\ option_ o = Some true
                   /\ start = [tok] /\ (Str.size tok <= 2)%nat
                   /\ Str.find "=" tok = None) ->
             start = []
             \/ exists p o tok,
                  designated P (String ch rest) p
                  /\ objs m0 !! p = Some o /\ T_ o <> TBool /\ option_ o = Some true
                  /\ start = [tok] /\ (Str.size tok <= 2)%nat
                  /\ Str.find "=" tok = None).
  { intros m0 [H | (p & o & tok & Hd & H)]; [now left | right].
    exists p, o, tok. split; [now apply designated_further | exact H]. }
  destruct (map_ P !! String "-" (String ch EmptyString)) as [q |] eqn:Hq.
  - unfold bind.
    destruct (Param_parse q start m) as [m1 [n | e | |]] eqn:E; try discriminate.
    + destruct (0 <? n); [discriminate |]. intros H. exact (Hf _ (IH _ _ _ H)).
    + intros [= <-].
      destruct (Param_parse_aborted q start m m1 E) as [H | (-> & o & tok & Ho & H)];
        [now left | right].
      exists q, o, tok. split; [| split; [exact Ho | exact H]].
      exists ch. split; [cbn; apply list_elem_of_here | exact Hq].
  - destruct (strict_ P); [discriminate |]. intros H. exact (Hf _ (IH _ _ _ H)).
Qed.

(** A token of at most two characters which starts with the marker and is
    neither the marker alone nor the terminator is a short option. *)
Lemma short_option_token arg :
  Str.at_ 0 arg = "-"%char ->
  arg <> "-" ->
  Str.at_ 1 arg <> "-"%char ->
  (Str.size arg <= 2)%nat ->
  Str.find "=" arg = None ->
  exists ch, arg = String "-" (String ch EmptyString)
             /\ ch <> "-"%char /\ ch <> "="%char.
Proof.
  destruct arg as [| a [| b [| x r]]]; cbn [Str.at_ String.get Str.size String.length].
  - discriminate.
  - intros ->. congruence.
  - intros -> _ Hb _ Hf. exists b. split; [reflexivity |]. split; [exact Hb |].
    intros ->. discriminate Hf.
  - intros _ _ _ Hl. lia.
Qed.

Lemma frame_positional_not_option (P : Params) m m' :
  frame P m m' -> positional_not_option P m -> positional_not_option P m'.
Proof.
  intros (_ & _ & T & _) Hn p o' Hp Ho'.
  destruct (T p o' Ho') as (o & Ho & [-> | ->]); exact (Hn p o Hp Ho).
Qed.

(** The one iteration which stops at an assertion: the cursor is on the
    last token, options are still scanned, and the token is a short
    option [-x] whose parameter takes a value. *)
Lemma iteration_aborted (P : Params) (c : cursor) m m' :
  positional_not_option P m ->
  iteration P c m = (m', Aborted) ->
  exists ch p o,
    start c = [String "-" (String ch EmptyString)]
    /\ ch <> "-"%char /\ ch <> "="%char
    /\ positional_onward c = false
    /\ map_ P !! String "-" (String ch EmptyString) = Some p
    /\ objs m' !! p = Some o /\ T_ o <> TBool /\ option_ o = Some true.
Proof.
  intros Hpn. unfold iteration.
  destruct (start c) as [| arg rest] eqn:Hs; [discriminate |].
  destruct (is_positional_token c arg) eqn:Hpos.
  - unfold positional_rule. destruct (positional_ P !! next c) as [q |] eqn:Hq.
    + unfold bind.
      destruct (Param_parse q (start c) m) as [m1 [n | e | |]] eqn:E; try discriminate.
      intros _. exfalso.
      destruct (Param_parse_aborted q _ m m1 E) as [H | (_ & o & tok & Ho & _ & Hopt & _)].
      * rewrite Hs in H. discriminate.
      * apply (Hpn q o); [| exact Ho | exact Hopt].
        apply list_elem_of_lookup. eauto.
    + destruct (strict_ P); discriminate.
  - destruct (bool_decide (arg = "--")) eqn:Ht; [discriminate |].
    apply bool_decide_eq_false in Ht.
    unfold is_positional_token in Hpos.
    apply orb_false_elim in Hpos as [Hpos H0].
    apply orb_false_elim in Hpos as [Hpos Hd].
    apply orb_false_elim in Hpos as [Hpo _].
    apply negb_false_iff, bool_decide_eq_true in H0.
    apply bool_decide_eq_false in Hd.
    destruct (bool_decide (Str.at_ 1 arg = "-"%char)) eqn:H1; cbn [negb].
    + apply bool_decide_eq_true in H1. unfold long_rule.
      destruct (map_ P !! _) as [q |].
      * unfold bind.
        destruct (Param_parse q (start c) m) as [m1 [n | e | |]] eqn:E;
          try discriminate.
        intros _. exfalso.
        destruct (Param_parse_aborted q _ m m1 E)
          as [H | (_ & o & tok & _ & _ & _ & Et & Hl & _)].
        -- rewrite Hs in H. discriminate.
        -- rewrite Hs in Et. injection Et as <- _. apply Ht.
           destruct arg as [| a [| b [| x r]]]; cbn in H0, H1, Hl;
             try discriminate; [congruence | lia].
      * destruct (strict_ P); discriminate.
    + apply bool_decide_eq_false in H1. unfold short_rule, bind.
      destruct (short_options P (start c) (Str.substr 1 arg) None m)
        as [m1 [[n |] | e | |]] eqn:E; try discriminate.
      intros [= <-].
      destruct (short_options_aborted P _ _ _ _ _ E)
        as [H | (p & o & tok & (ch' & Hin & Hm) & Ho & HT & Hopt & Et & Hl & Hf)].
      { rewrite Hs in H. discriminate. }
      rewrite Hs in Et. injection Et as <- ->.
      destruct (short_option_token arg H0 Hd H1 Hl Hf) as (ch & -> & Hch & Heq).
      cbn in Hin. apply list_elem_of_singleton in Hin as ->.
      exists ch, p, o. repeat split; assumption.
Qed.

Lemma last_drop_Some {A} k (l : list A) x : last (drop k l) = Some x -> last l = Some x.
Proof.
  revert l. induction k as [| k IH]; intros l; [now rewrite drop_0 |].
  destruct l as [| a l]; [discriminate |]. cbn [drop]. intros H.
  pose proof (IH l H) as Hl. rewrite last_cons, Hl. reflexivity.
Qed.

Lemma scan_aborted (P : Params) :
  forall fuel (c : cursor) m m',
    positional_not_option P m ->
    scan fuel P c m = Some (m', Aborted) ->
    exists ch p o,
      last (start c) = Some (String "-" (String ch EmptyString))
      /\ ch <> "-"%char /\ ch <> "="%char
      /\ map_ P !! String "-" (String ch EmptyString) = Some p
      /\ objs m' !! p = Some o /\ T_ o <> TBool /\ option_ o = Some true.
Proof.
  induction fuel as [| fuel IH]; intros c m m' Hpn; simpl.
  - destruct (start c); discriminate.
  - destruct (start c) as [| arg rest] eqn:Hs; [discriminate |].
    assert (Hne : start c <> []) by (rewrite Hs; discriminate).
    destruct (iteration P c m) as [m1 [c1 | e | |]] eqn:E; try discriminate.
    + intros H.
      pose proof (frame_positional_not_option P m m1 (iteration_frame P c m m1 _ E) Hpn)
        as Hpn1.
      destruct (IH _ _ _ Hpn1 H) as (ch & p & o & Hl & Ht). exists ch, p, o.
      split; [| exact Ht]. rewrite <- Hs.
      destruct (iteration_cursor_cases P c c1 m m1 Hne E)
        as [(-> & _) | [(k & _ & Ek & _) | (k & _ & Ek & _)]].
      * exact Hl.
      * rewrite Ek in Hl. exact (last_drop_Some k _ _ Hl).
      * rewrite Ek in Hl. exact (last_drop_Some k _ _ Hl).
    + intros [= <-].
      destruct (iteration_aborted P c m m1 Hpn E)
        as (ch & p & o & Et & Hch & Heq & _ & Hm & Ho).
      exists ch, p, o. rewrite Hs in Et. rewrite Et.
      repeat split; try assumption; apply Ho.
Qed.

Lemma for_each_check_not_aborted l m m' : for_each check l m <> (m', Aborted).
Proof.
  revert m. induction l as [| p l IH]; intros m; [discriminate |].
  cbn [for_each]. unfold bind.
  destruct (check p m) as [m1 [[] | e | |]] eqn:E; try discriminate.
  - apply IH.
  - exfalso. revert E. unfold check, bind, deref.
    destruct (objs m !! p) as [o |]; [| discriminate].
    destruct (required_ o); [| discriminate].
    destruct (found_ o) as [[|] |]; discriminate.
Qed.

(** [add] keeps the positional parameters free of options: the new
    parameter is appended to them only when none of its names is one,
    and then its [option_] is [false] or unassigned. *)
Lemma add_keeps_positional_not_option T target names required (P P' : Params) m m' :
  add T target names required P m = (m', Ret P') ->
  live P m ->
  positional_not_option P m ->
  positional_not_option P' m'.
Proof.
  intros H [_ L2] Hpn.
  apply add_returns in H as (opt & option & Hopt & Hn & -> & _ & _ & Hp).
  rewrite ParamBase_names_last in Hopt. injection Hopt as <-.
  destruct (add_names_class _ _ _ _ _ Hn) as [_ I2].
  assert (Hold : forall p o, p ∈ positional_ P ->
            (objs m ++ [mkParam T target names
                          (match last names with
                           | Some n => Some (is_option n)
                           | None => None
                           end) required None])%list !! p = Some o ->
            option_ o <> Some true).
  { intros p o Hin Ho. rewrite lookup_app_l in Ho by exact (L2 p Hin).
    exact (Hpn p o Hin Ho). }
  intros p o Hin Ho. cbn [objs] in Ho. rewrite Hp in Hin.
  destruct option; [exact (Hold p o Hin Ho) |].
  apply elem_of_app in Hin as [Hin | Hin]; [exact (Hold p o Hin Ho) |].
  apply list_elem_of_singleton in Hin as ->.
  rewrite list_lookup_middle in Ho by reflexivity. injection Ho as <-. cbn [option_].
  destruct (last names) as [l |] eqn:El; [| discriminate].
  intros [= Hl]. destruct I2 as [Hc _]; [| discriminate].
  exists l. split; [now apply last_Some_elem_of | exact Hl].
Qed.

(** X18: an assertion stops [parse] in one situation only. From a
    registry whose positional parameters are not options, as [add] builds
    it, [parse] aborts only when the last token is a short option [-x] of
    two characters, with [x] neither the marker nor [=], whose alias
    designates a parameter with a value: the option waits for its value
    in a token of its own and there is none. No other token, no token
    at another place and no other parameter makes [parse] abort. *)
Theorem parse_aborts_only_at_trailing_short_option fuel (P : Params) argv m m' :
  positional_not_option P m ->
  parse fuel P argv m = Some (m', Aborted) ->
  exists ch p o,
    last argv = Some (String "-" (String ch EmptyString))
    /\ ch <> "-"%char /\ ch <> "="%char
    /\ map_ P !! String "-" (String ch EmptyString) = Some p
    /\ objs m' !! p = Some o /\ T_ o <> TBool /\ option_ o = Some true.
Proof.
  intros Hpn. unfold parse.
  destruct (scan fuel P (mkCursor argv 0 false) m) as [[m1 [c1 | e | |]] |] eqn:E;
    try discriminate.
  - intros H. injection H as H. unfold check_all, bind in H.
    destruct (for_each check (map_to_list (map_ P)).*2 m1) as [m2 [[] | e | |]] eqn:E1;
      try discriminate.
    + now apply for_each_check_not_aborted in H.
    + injection H as <-. now apply for_each_check_not_aborted in E1.
  - intros [= <-]. exact (scan_aborted P fuel _ m m1 Hpn E).
Qed.

(** What the scan needs of the memory to stay defined, and keeps. *)
Lemma Param_parse_keeps_live_and_class (P : Params) (q : ptr) s m m' (r : result Z) :
  Param_parse q s m = (m', r) ->
  live P m /\ class_assigned m -> live P m' /\ class_assigned m'.
Proof.
  intros H [[L1 L2] Hc].
  apply Param_parse_memory in H as [-> | (o & v & Ho & ->)];
    [exact (conj (conj L1 L2) Hc) |].
  assert (El : (length (objs m) <= length (<[q := mark_found o]> (objs m)))%nat).
  { apply Nat.eq_le_incl. symmetry. apply length_insert. }
  split; [split |]; cbn [objs].
  - intros name p Hp. exact (Nat.lt_le_trans _ _ _ (L1 name p Hp) El).
  - intros p Hp. exact (Nat.lt_le_trans _ _ _ (L2 p Hp) El).
  - intros p o' Ho'. cbn [objs] in Ho'. destruct (decide (q = p)) as [<- | Hne].
    + rewrite list_lookup_insert_eq in Ho' by (now apply lookup_lt_Some in Ho).
      injection Ho' as <-. exact (Hc q o Ho).
    + rewrite list_lookup_insert_ne in Ho' by exact Hne. exact (Hc p o' Ho').
Qed.

Lemma Param_parse_defined (q : ptr) start m m' :
  (q < length (objs m))%nat ->
  class_assigned m ->
  Param_parse q start m <> (m', Undef).
Proof.
  intros Hq Hc. destruct (objs m !! q) as [o |] eqn:Ho.
  2:{ apply lookup_ge_None in Ho. lia. }
  destruct start as [| tok rest].
  { unfold Param_parse, bind, deref. rewrite Ho. cbn. discriminate. }
  destruct (decide (T_ o = TBool)) as [HT | HT].
  - rewrite (Param_parse_bool q o _ m Ho HT) by discriminate. discriminate.
  - rewrite (Param_parse_value q o _ m Ho HT) by discriminate.
    destruct (value o (tok :: rest)) as [[text inc] | e | |] eqn:Ev; try discriminate.
    + destruct (conversion (T_ o) text); discriminate.
    + exfalso. revert Ev. unfold value. specialize (Hc q o Ho).
      destruct (option_ o) as [[|] |]; [| discriminate | contradiction].
      destruct (Str.find "=" tok); [discriminate |].
      destruct (2 <? Str.size tok)%nat; [discriminate |].
      destruct rest; discriminate.
Qed.

Lemma short_options_defined (P : Params) start chars :
  strict_ P = true ->
  forall inc m m' (r : result (option Z)),
    live P m /\ class_assigned m ->
    short_options P start chars inc m = (m', r) ->
    r <> Undef /\ (r = Ret None -> inc = None /\ chars = EmptyString).
Proof.
  intros Hst. induction chars as [| ch rest IH]; intros inc m m' r Hinv;
    cbn [short_options].
  - intros [= _ <-]. split; [discriminate |]. now intros [= <-].
  - destruct (map_ P !! String "-" (String ch EmptyString)) as [q |] eqn:Hq.
    + unfold bind.
      destruct (Param_parse q start m) as [m1 [n | e | |]] eqn:E.
      * destruct (0 <? n).
        -- intros [= _ <-]. split; discriminate.
        -- intros H.
           destruct (IH _ _ _ _ (Param_parse_keeps_live_and_class P _ _ _ _ _ E Hinv) H)
             as [I1 I2].
           split; [exact I1 |]. intros Hr. destruct (I2 Hr) as [? _]. discriminate.
      * intros [= _ <-]. split; discriminate.
      * intros [= _ <-]. split; discriminate.
      * exfalso. destruct Hinv as [[L1 _] Hc].
        exact (Param_parse_defined q start m m1 (L1 _ q Hq) Hc E).
    + rewrite Hst. intros [= _ <-]. split; discriminate.
Qed.

Lemma iteration_defined (P : Params) (c : cursor) m m' :
  strict_ P = true ->
  live P m /\ class_assigned m ->
  iteration P c m <> (m', Undef).
Proof.
  intros Hst Hinv. pose proof Hinv as [[L1 L2] Hc]. unfold iteration.
  destruct (start c) as [| arg rest] eqn:Hs; [discriminate |].
  destruct (is_positional_token c arg) eqn:Hpos.
  - unfold positional_rule. destruct (positional_ P !! next c) as [q |] eqn:Hq.
    + unfold bind.
      destruct (Param_parse q (start c) m) as [m1 [n | e | |]] eqn:E; try discriminate.
      exfalso. refine (Param_parse_defined q _ m m1 (L2 q _) Hc E).
      apply list_elem_of_lookup. eauto.
    + rewrite Hst. discriminate.
  - destruct (bool_decide (arg = "--")); [discriminate |].
    destruct (negb (bool_decide (Str.at_ 1 arg = "-"%char))).
    + unfold short_rule, bind.
      destruct (short_options P (start c) (Str.substr 1 arg) None m)
        as [m1 [[n |] | e | |]] eqn:E; try discriminate.
      * destruct (short_options_defined P _ _ Hst _ _ _ _ Hinv E) as [_ I].
        destruct (I eq_refl) as [_ Hsub]. exfalso.
        unfold is_positional_token in Hpos.
        apply orb_false_elim in Hpos as [Hpos H0].
        apply orb_false_elim in Hpos as [Hpos H2].
        apply orb_false_elim in Hpos as [_ H1].
        apply negb_false_iff, bool_decide_eq_true in H0.
        apply bool_decide_eq_false in H1, H2.
        destruct arg as [| a [| b r]]; cbn in Hsub, H0; try discriminate.
        subst a. now apply H2.
      * destruct (short_options_defined P _ _ Hst _ _ _ _ Hinv E) as [I _].
        now destruct I.
    + unfold long_rule. destruct (map_ P !! _) as [q |] eqn:Hq.
      * unfold bind.
        destruct (Param_parse q (start c) m) as [m1 [n | e | |]] eqn:E;
          try discriminate.
        exfalso. exact (Param_parse_defined q _ m m1 (L1 _ q Hq) Hc E).
      * rewrite Hst. discriminate.
Qed.

Lemma scan_keeps_live_and_class (P : Params) :
  forall fuel (c : cursor) m m' (r : result cursor),
    scan fuel P c m = Some (m', r) ->
    live P m /\ class_assigned m -> live P m' /\ class_assigned m'.
Proof.
  induction fuel as [| fuel IH]; intros c m m' r; simpl.
  - destruct (start c); [| discriminate]. now intros [= <- _].
  - destruct (start c) as [| arg rest]; [now intros [= <- _] |].
    destruct (iteration P c m) as [m1 [c1 | e | |]] eqn:E; intros H Hinv.
    + apply (IH _ _ _ _ H). revert Hinv. revert E.
      apply (iteration_lift P
               (fun m m' => live P m /\ class_assigned m ->
                            live P m' /\ class_assigned m'));
        [auto | auto | exact (Param_parse_keeps_live_and_class P)].
    + injection H as <- _. revert Hinv. revert E.
      apply (iteration_lift P
               (fun m m' => live P m /\ class_assigned m ->
                            live P m' /\ class_assigned m'));
        [auto | auto | exact (Param_parse_keeps_live_and_class P)].
    + injection H as <- _. revert Hinv. revert E.
      apply (iteration_lift P
               (fun m m' => live P m /\ class_assigned m ->
                            live P m' /\ class_assigned m'));
        [auto | auto | exact (Param_parse_keeps_live_and_class P)].
    + injection H as <- _. revert Hinv. revert E.
      apply (iteration_lift P
               (fun m m' => live P m /\ class_assigned m ->
                            live P m' /\ class_assigned m'));
        [auto | auto | exact (Param_parse_keeps_live_and_class P)].
Qed.

Lemma scan_defined (P : Params) :
  strict_ P = true ->
  forall fuel (c : cursor) m m',
    live P m /\ class_assigned m ->
    scan fuel P c m <> Some (m', Undef).
Proof.
  intros Hst. induction fuel as [| fuel IH]; intros c m m' Hinv; simpl.
  - destruct (start c); discriminate.
  - destruct (start c) as [| arg rest]; [discriminate |].
    destruct (iteration P c m) as [m1 [c1 | e | |]] eqn:E; try discriminate.
    + apply IH. revert Hinv. revert E.
      apply (iteration_lift P
               (fun m m' => live P m /\ class_assigned m ->
                            live P m' /\ class_assigned m'));
        [auto | auto | exact (Param_parse_keeps_live_and_class P)].
    + exfalso. exact (iteration_defined P c m m1 Hst Hinv E).
Qed.

Lemma for_each_check_undefined l m m' :
  for_each check l m = (m', Undef) ->
  exists p, p ∈ l
    /\ (objs m !! p = None
        \/ exists o, objs m !! p = Some o /\ required_ o = true /\ found_ o = None).
Proof.
  induction l as [| q l IH]; [discriminate |].
  cbn [for_each]. unfold bind.
  destruct (check q m) as [m1 [[] | e | |]] eqn:E; try discriminate.
  - pose proof (check_memory q m) as Hm. rewrite E in Hm. cbn in Hm. subst m1.
    intros H. destruct (IH H) as (p & Hp & Hu). exists p.
    split; [now apply list_elem_of_further | exact Hu].
  - intros _. exists q. split; [apply list_elem_of_here |].
    revert E. unfold check, bind, deref.
    destruct (objs m !! q) as [o |]; [| now left].
    destruct (required_ o) eqn:Hr; [| discriminate].
    destruct (found_ o) as [[|] |] eqn:Hf; try discriminate.
    intros _. right. exists o. auto.
Qed.

(** X19: in strict mode, when the registry points at objects and every
    parameter was declared with a name, undefined behaviour has one source
    only: [parse] ends in it exactly by the audit reading the [found_],
    never assigned, of a required parameter which the tokens did not
    match. The scan itself is always defined. *)
Theorem strict_parse_undefined_only_in_audit fuel (P : Params) argv m m' :
  strict_ P = true ->
  live P m ->
  class_assigned m ->
  parse fuel P argv m = Some (m', Undef) ->
  exists p o, audited P p /\ objs m' !! p = Some o
              /\ required_ o = true /\ found_ o = None.
Proof.
  intros Hst Hl Hc. unfold parse.
  destruct (scan fuel P (mkCursor argv 0 false) m) as [[m1 [c1 | e | |]] |] eqn:E;
    try discriminate.
  2:{ now apply (scan_defined P Hst) in E. }
  intros H. injection H as H.
  pose proof (check_all_memory P m1) as Hm. rewrite H in Hm. cbn in Hm. subst m'.
  destruct (scan_keeps_live_and_class P _ _ _ _ _ E (conj Hl Hc)) as [[L1 L2] _].
  assert (Hlive : forall p, audited P p -> objs m1 !! p <> None).
  { intros p [Hp | Hp] Hn; apply lookup_ge_None in Hn.
    - apply list_elem_of_fmap in Hp as ([name q] & -> & Hin).
      apply elem_of_map_to_list in Hin. apply L1 in Hin. cbn in Hn. lia.
    - apply L2 in Hp. lia. }
  revert H. unfold check_all, bind.
  destruct (for_each check (map_to_list (map_ P)).*2 m1) as [m2 [[] | e | |]] eqn:E1;
    try discriminate.
  - pose proof (for_each_check_memory (map_to_list (map_ P)).*2 m1) as Hm.
    rewrite E1 in Hm. cbn in Hm. subst m2. intros E2.
    apply for_each_check_undefined in E2 as (p & Hp & [Hn | (o & Ho)]).
    + now destruct (Hlive p (or_intror Hp)).
    + exists p, o. split; [now right | exact Ho].
  - intros _.
    apply for_each_check_undefined in E1 as (p & Hp & [Hn | (o & Ho)]).
    + now destruct (Hlive p (or_introl Hp)).
    + exists p, o. split; [now left | exact Ho].
Qed.

(** X20: [add] keeps the registry sound. When every alias and every
    positional entry designates an object, it is still so after a call of
    [add] which returns; with a non-empty list of names every parameter
    still has a class; and no [found_] is given the value [false]. *)
Theorem add_keeps_registry_sound T target names required (P P' : Params) m m' :
  add T target names required P m = (m', Ret P') ->
  live P m ->
  live P' m'
  /\ (names <> [] -> class_assigned m -> class_assigned m')
  /\ (never_false m -> never_false m').
Proof.
  intros H [L1 L2].
  pose proof (add_never_false _ _ _ _ _ _ _ _ H) as Hnf.
  apply add_returns in H as (opt & option & Hopt & Hn & -> & _ & _ & Hp).
  rewrite ParamBase_names_last in Hopt. injection Hopt as <-.
  pose proof (add_names_table _ _ _ _ _ _ Hn) as Ht.
  split; [split | split].
  - intros name p Hm. cbn [objs]. rewrite length_app. cbn.
    rewrite Ht in Hm. destruct (decide (name ∈ names)).
    + injection Hm as <-. lia.
    + apply L1 in Hm. lia.
  - intros p Hin. cbn [objs]. rewrite length_app. cbn. rewrite Hp in Hin.
    destruct option.
    + apply L2 in Hin. lia.
    + apply elem_of_app in Hin as [Hin | Hin].
      * apply L2 in Hin. lia.
      * apply list_elem_of_singleton in Hin. lia.
  - intros Hne Hc p o Ho. cbn [objs] in Ho.
    apply lookup_app_Some in Ho as [Ho | [_ Ho]]; [exact (Hc p o Ho) |].
    apply list_lookup_singleton_Some in Ho as [_ <-]. cbn [option_].
    destruct (last names) eqn:El; [discriminate |].
    apply last_None in El. contradiction.
  - exact Hnf.
Qed.

End Safety.

(** * The further properties on concrete schemas and tokens *)

Section Instances.

Context {C : StdConv}.

Lemma count_declared :
  one_option true TULong ["-c"; "--count"] empty_memory
  = (count_memory, Ret count_registry).
Proof. vm_compute. reflexivity. Qed.

Lemma switch_declared :
  one_option true TBool ["on"] empty_memory = (switch_memory, Ret switch_registry).
Proof. vm_compute. reflexivity. Qed.

Lemma file_no_long_flag : no_long_flag file_registry file_memory.
Proof.
  intros name p o. unfold file_registry. cbn [map_].
  rewrite !lookup_insert. repeat case_decide; subst; try discriminate.
Qed.

Lemma file_well_typed : well_typed file_memory.
Proof.
  intros p o. destruct p as [| [| p]]; cbn; try discriminate;
    intros [= <-]; cbn; eauto.
Qed.

Lemma required_file_live : live required_file_registry required_file_memory.
Proof.
  split.
  - intros name p. unfold required_file_registry. cbn [map_].
    rewrite lookup_insert. case_decide; [intros [= <-]; cbn; lia | discriminate].
  - intros p Hp. apply list_elem_of_singleton in Hp as ->. cbn. lia.
Qed.

Lemma required_file_class : class_assigned required_file_memory.
Proof.
  intros p o. destruct p as [| p]; cbn; [| discriminate]. now intros [= <-].
Qed.

Lemma fresh_registry_live strict m : live (Params_new strict) m.
Proof.
  split.
  - intros name p. cbn. rewrite lookup_empty. discriminate.
  - intros p Hp. now apply not_elem_of_nil in Hp.
Qed.

Lemma dash_ab_flags ch :
  ch ∈ list_ascii_of_string (Str.substr 1 "-ab") ->
  exists p o, map_ dash_ab_registry !! String "-" (String ch EmptyString) = Some p
              /\ objs dash_ab_memory !! p = Some o /\ T_ o = TBool.
Proof.
  cbn. intros H. apply elem_of_cons in H as [-> | H].
  - exists 1%nat. eexists. repeat split; reflexivity.
  - apply list_elem_of_singleton in H as ->.
    exists 2%nat. eexists. repeat split; reflexivity.
Qed.

Lemma dash_ab_designated p :
  designated dash_ab_registry (Str.substr 1 "-ab") p -> p = 1%nat \/ p = 2%nat.
Proof.
  intros (ch & Hin & Hm). cbn in Hin.
  apply elem_of_cons in Hin as [-> | Hin].
  - left. revert Hm. unfold dash_ab_registry. cbn [map_].
    rewrite !lookup_insert. repeat case_decide; subst; try discriminate.
    now intros [= <-].
  - apply list_elem_of_singleton in Hin as ->.
    right. revert Hm. unfold dash_ab_registry. cbn [map_].
    rewrite !lookup_insert. repeat case_decide; subst; try discriminate.
    now intros [= <-].
Qed.

Lemma cluster_positional_not_option :
  positional_not_option cluster_registry cluster_memory.
Proof. intros p o Hp. now apply not_elem_of_nil in Hp. Qed.

Lemma fresh_registry_positional_not_option strict m :
  positional_not_option (Params_new strict) m.
Proof. intros p o Hp. now apply not_elem_of_nil in Hp. Qed.

End Instances.

Section Witnesses.

#[local] Existing Instance Reference.conv.

Lemma add_enters_every_name_witness :
  exists m' P',
    add TBool 0 ["-v"; "--verbose"] false (Params_new true) (mkMemory [] [VBool false])
    = (m', Ret P')
    /\ map_ P' !! "--verbose" = Some 0%nat.
Proof.
  eexists _, _. split; [reflexivity |].
  apply (proj1 (add_enters_every_name TBool 0 ["-v"; "--verbose"] false
                  (Params_new true) _ (mkMemory [] [VBool false]) _ eq_refl)).
  apply list_elem_of_further, list_elem_of_here.
Defined.

Lemma add_aborts_witness :
  exists m',
    add TString 0 ["-f"; "file"] false (Params_new true) (mkMemory [] [VString ""])
    = (m', Aborted).
Proof.
  apply (proj1 (add_aborts_iff_bare_after_option TString 0 ["-f"; "file"] false
                  (Params_new true) (mkMemory [] [VString ""]))).
  exists [], "-f", [], "file", []. repeat split; reflexivity.
Defined.

Lemma add_positional_witness :
  exists m' P',
    add TString 0 ["file"; "-f"] false (Params_new true) (mkMemory [] [VString ""])
    = (m', Ret P')
    /\ positional_ P' = [].
Proof.
  eexists _, _. split; [reflexivity |].
  destruct (add_positional_iff_no_option_name TString 0 ["file"; "-f"] false
              (Params_new true) _ (mkMemory [] [VString ""]) _ eq_refl)
    as (o & _ & _ & H).
  apply H. exists "-f". split; [| reflexivity].
  apply list_elem_of_further, list_elem_of_here.
Defined.

Lemma get_after_add_value_witness :
  exists m' P',
    add_value TInt ["-n"; "--num"] false (Params_new true) empty_memory = (m', Ret P')
    /\ get TInt "--num" P' m' = (m', Ret (VInt 0)).
Proof.
  eexists _, _. split; [reflexivity |].
  apply (proj1 (get_after_add_value TInt ["-n"; "--num"] false (Params_new true) _
                  empty_memory _ "--num" eq_refl
                  (list_elem_of_further _ _ _ (list_elem_of_here _ _)))).
Defined.


Lemma iteration_stalls_witness :
  exists arg rest p o,
    ["--verbose"] = arg :: rest
    /\ is_long_token arg = true
    /\ map_ verbose_registry !! long_key arg = Some p
    /\ objs verbose_memory !! p = Some o /\ T_ o = TBool
    /\ verbose_set = mkMemory (<[p := mark_found o]> (objs verbose_memory))
                              (<[target_ o := VBool true]> (vars verbose_memory)).
Proof.
  destruct (iteration_stalls_only_lenient_or_long_flag verbose_registry
              (mkCursor ["--verbose"] 0 false) (mkCursor ["--verbose"] 0 false)
              verbose_memory verbose_set ltac:(discriminate) eq_refl)
    as [(_ & _ & Hst & _)
       | [(_ & arg & rest & p & o & Hs & _ & Hl & Hm & Ho & HT & Hset)
         | [(k & Hk & E) | (En & _)]]].
  - discriminate Hst.
  - exists arg, rest, p, o. repeat split; assumption.
  - exfalso. apply (f_equal length) in E. rewrite length_drop in E.
    cbn in Hk, E. lia.
  - discriminate En.
Defined.

Lemma strict_parse_ends_witness :
  exists out,
    forall fuel,
      (length ["x"] + length (positional_ file_registry) <= fuel)%nat ->
      parse fuel file_registry ["x"] file_memory = Some out.
Proof.
  exact (strict_parse_without_long_flag_ends file_registry ["x"] file_memory
           eq_refl file_no_long_flag).
Defined.

Lemma lenient_unmatched_cluster_witness :
  iteration (Params_new false) (mkCursor ["-xy"] 0 false) empty_memory
  = (empty_memory, Undef).
Proof.
  apply (lenient_unmatched_cluster_reads_unassigned_inc (Params_new false)
           (mkCursor ["-xy"] 0 false) "-xy" [] empty_memory);
    try reflexivity; [discriminate | cbn; lia].
Defined.

Lemma short_option_value_witness :
  iteration cluster_registry (mkCursor ["-b5"] 0 false) cluster_memory
  = iteration cluster_registry (mkCursor ["-b"; "5"] 0 false) cluster_memory.
Proof.
  destruct (short_option_value_appended_or_separate cluster_registry cluster_memory
              "b" "5" 1 (mkParam TString 1 ["-b"] (Some true) false None) [] 0
              ltac:(discriminate) ltac:(discriminate) ltac:(discriminate)
              eq_refl eq_refl eq_refl ltac:(discriminate) eq_refl)
    as [H1 H2].
  exact (eq_trans H1 (eq_sym H2)).
Defined.

Lemma long_option_value_witness :
  iteration count_registry (mkCursor ["--count=5"] 0 false) count_memory
  = (mkMemory [mkParam TULong 0 ["-c"; "--count"] (Some true) false (Some true)]
              [VULong 5],
     Ret (mkCursor [] 0 false)).
Proof.
  exact (long_option_value_behind_first_equals count_registry count_memory
           "count" "5" 0
           (mkParam TULong 0 ["-c"; "--count"] (Some true) false None) [] 0
           eq_refl eq_refl eq_refl ltac:(discriminate) eq_refl).
Defined.

Lemma bare_token_witness :
  iteration file_registry (mkCursor ["-"] 0 false) file_memory
  = (mkMemory [mkParam TBool 0 ["-a"] (Some true) false None;
               mkParam TString 1 ["file"] (Some false) false (Some true)]
              [VBool false; VString "-"],
     Ret (mkCursor [] 1 false)).
Proof.
  apply (bare_token_goes_to_next_positional file_registry (mkCursor ["-"] 0 false)
           file_memory "-" [] 1
           (mkParam TString 1 ["file"] (Some false) false None));
    try reflexivity.
  right. left. reflexivity.
Defined.

Lemma positional_flag_witness :
  iteration switch_registry (mkCursor ["x"] 0 false) switch_memory
  = (mkMemory [mkParam TBool 0 ["on"] (Some false) false (Some true)] [VBool true],
     Ret (mkCursor ["x"] 1 false)).
Proof.
  exact (positional_flag_consumes_no_token switch_registry (mkCursor ["x"] 0 false)
           switch_memory "x" [] 0
           (mkParam TBool 0 ["on"] (Some false) false None)
           eq_refl eq_refl eq_refl eq_refl eq_refl).
Defined.

Lemma parse_returns_required_witness :
  parse 1 required_file_registry ["x"] required_file_memory
    = Some (required_file_parsed, Ret tt)
  /\ exists o, objs required_file_parsed !! 0%nat = Some o
               /\ required_ o = true /\ found_ o = Some true.
Proof.
  split; [reflexivity |].
  destruct (parse_returns_only_with_required_found 1 required_file_registry ["x"]
              required_file_memory required_file_parsed eq_refl 0%nat)
    as (o & Ho & Hf).
  - right. apply list_elem_of_here.
  - exists o. split; [exact Ho |].
    assert (Hr : required_ o = true) by (injection Ho as <-; reflexivity).
    exact (conj Hr (Hf Hr)).
Defined.

Lemma parse_changes_only_witness :
  length (objs file_parsed) = length (objs file_memory)
  /\ length (vars file_parsed) = length (vars file_memory).
Proof.
  destruct (parse_changes_only_found_and_targets 1 file_registry ["x"] file_memory
              file_parsed (Ret tt) eq_refl) as (H1 & H2 & _).
  exact (conj H1 H2).
Defined.

Lemma parse_keeps_typed_witness : well_typed file_parsed.
Proof.
  exact (parse_keeps_targets_typed 1 file_registry ["x"] file_memory file_parsed
           (Ret tt) file_well_typed eq_refl).
Defined.

Lemma get_after_parse_witness :
  exists v', get TString "file" file_registry file_parsed = (file_parsed, Ret v')
             /\ type_of v' = TString.
Proof.
  exact (get_still_returns_after_parse 1 file_registry ["x"] file_memory file_parsed
           (Ret tt) TString "file" (VString "") file_well_typed eq_refl eq_refl).
Defined.

Lemma flags_cluster_witness :
  exists m',
    iteration dash_ab_registry (mkCursor ["-ab"] 0 false) dash_ab_memory
    = (m', Ret (mkCursor [] 0 false))
    /\ objs m' !! 0%nat = objs dash_ab_memory !! 0%nat
    /\ vars m' !! 0%nat = vars dash_ab_memory !! 0%nat
    /\ vars m' !! 1%nat = Some (VBool true)
    /\ vars m' !! 2%nat = Some (VBool true).
Proof.
  destruct (flags_cluster_sets_every_flag dash_ab_registry (mkCursor ["-ab"] 0 false)
              dash_ab_memory "-ab" [] eq_refl eq_refl eq_refl)
    as (m' & H & _ & _ & Hset & U & V).
  - discriminate.
  - cbn. lia.
  - exact dash_ab_flags.
  - exists m'. split; [exact H |]. split; [| split; [| split]].
    + apply U. intros Hd. apply dash_ab_designated in Hd as [Hd | Hd]; discriminate Hd.
    + apply V. intros p o Hd Ho.
      apply dash_ab_designated in Hd as [-> | ->]; injection Ho as <-; discriminate.
    + apply (proj2 (Hset 1%nat (mkParam TBool 1 ["-a"] (Some true) false None)
                      (ex_intro _ "a"%char
                         (conj (list_elem_of_here _ _) eq_refl)) eq_refl)).
      cbn. lia.
    + apply (proj2 (Hset 2%nat (mkParam TBool 2 ["-b"] (Some true) false None)
                      (ex_intro _ "b"%char
                         (conj (list_elem_of_further _ _ _ (list_elem_of_here _ _))
                               eq_refl)) eq_refl)).
      cbn. lia.
Defined.

Lemma parse_aborts_witness :
  parse 1 cluster_registry ["-b"] cluster_memory = Some (cluster_memory, Aborted)
  /\ exists ch p o,
       last ["-b"] = Some (String "-" (String ch EmptyString))
       /\ ch <> "-"%char /\ ch <> "="%char
       /\ map_ cluster_registry !! String "-" (String ch EmptyString) = Some p
       /\ objs cluster_memory !! p = Some o /\ T_ o <> TBool /\ option_ o = Some true.
Proof.
  split; [reflexivity |].
  exact (parse_aborts_only_at_trailing_short_option 1 cluster_registry ["-b"]
           cluster_memory cluster_memory cluster_positional_not_option eq_refl).
Defined.

Lemma strict_parse_undefined_witness :
  exists p o, audited required_file_registry p
              /\ objs required_file_memory !! p = Some o
              /\ required_ o = true /\ found_ o = None.
Proof.
  exact (strict_parse_undefined_only_in_audit 0 required_file_registry []
           required_file_memory required_file_memory eq_refl
           required_file_live required_file_class eq_refl).
Defined.

Lemma add_keeps_sound_witness :
  exists m' P',
    add TBool 0 ["-v"] false (Params_new true) (mkMemory [] [VBool false])
    = (m', Ret P')
    /\ live P' m'.
Proof.
  eexists _, _. split; [reflexivity |].
  exact (proj1 (add_keeps_registry_sound TBool 0 ["-v"] false (Params_new true) _
                  (mkMemory [] [VBool false]) _ eq_refl
                  (fresh_registry_live true _))).
Defined.

End Witnesses.
